(** * Waffle puzzle generator: a shallow embedding of [waffle_maker.py]
      and [waffle_mixer.py], and the properties of its specification.

    Python values are modelled as follows.
    - [str] is [string]; [w[pos]] is [str_index], which raises
      [IndexError] out of range.  Characters are the [ascii] of the
      Standard Library and the classification of characters ([isalpha],
      [lower], [strip]) is the one Python gives on ASCII text; codes
      from 128 on are neither letters nor spaces here.
    - counts, bounds and word positions ([fixed_count], [n], [max_tries],
      [max_attempts_per_level], the [pos] of a constraint, documented as
      0..4) are [nat].
    - [dict] keyed by [(pos, ch)] is a [gmap]; a [set] is a [gset]; a dict
      literal whose iteration order is observed is an association list in
      insertion order.
    - exceptions are the [Raise] branch of [result].
    - the module [random] is an interface ([Random]) whose operations
      thread an explicit generator state; [RandomLaws] is its documented
      contract, and [Tape] a generator that meets it.
    - files are the lists of what is read from or written to them. *)

From Stdlib Require Import Ascii String.
From stdpp Require Import base option list gmap strings sorting.

Local Open Scope string_scope.
Local Open Scope list_scope.
Local Open Scope nat_scope.

(** ** Exceptions *)

Inductive exn : Set := IndexError | ValueError | KeyError | TypeError.

Inductive result (A : Type) : Type :=
| Ok (a : A)
| Raise (e : exn).
Arguments Ok {A} a.
Arguments Raise {A} e.

Global Instance result_ret : MRet result := λ A a, Ok a.
Global Instance result_bind : MBind result := λ A B f m,
  match m with
  | Ok a => f a
  | Raise e => Raise e
  end.

(** ** The [random] module *)

(** [choice seq] raises [IndexError] on an empty sequence; [shuffle x]
    permutes [x] in place (here: returns the permuted list);
    [sample population k] raises [ValueError] unless [0 <= k <= len]. *)
Class Random (G : Type) : Type := {
  choice : ∀ {A : Type}, list A → G → result (A * G);
  shuffle : ∀ {A : Type}, list A → G → list A * G;
  sample : ∀ {A : Type}, list A → nat → G → result (list A * G)
}.

(** The documented contract of the three operations. *)
Class RandomLaws (G : Type) `{Random G} : Prop := {
  choice_nil : ∀ {A : Type} (g : G), choice (@nil A) g = Raise IndexError;
  choice_elem : ∀ {A : Type} (l : list A) (g : G),
    l ≠ [] → ∃ x g', choice l g = Ok (x, g') ∧ x ∈ l;
  shuffle_perm : ∀ {A : Type} (l : list A) (g : G), (shuffle l g).1 ≡ₚ l;
  sample_ok : ∀ {A : Type} (l : list A) (k : nat) (g : G),
    k ≤ length l →
    ∃ s rest g', sample l k g = Ok (s, g') ∧ length s = k ∧ s ++ rest ≡ₚ l;
  sample_err : ∀ {A : Type} (l : list A) (k : nat) (g : G),
    length l < k → sample l k g = Raise ValueError
}.

(** A deterministic generator reading its draws from a tape; an exhausted
    tape keeps answering [0]. *)
Module Tape.

Definition randbelow (n : nat) (g : list nat) : nat * list nat :=
  match g with
  | [] => (0, [])
  | x :: g' => (x `mod` n, g')
  end.

Definition tape_choice {A : Type} (l : list A) (g : list nat) : result (A * list nat) :=
  match l with
  | [] => Raise IndexError
  | _ =>
    let '(j, g') := randbelow (length l) g in
    match l !! j with
    | Some x => Ok (x, g')
    | None => Raise IndexError
    end
  end.

(** [draw n l g] takes [n] elements out of [l] without replacement and
    returns them with what is left of [l]. *)
Fixpoint draw {A : Type} (n : nat) (l : list A) (g : list nat)
  : list A * list A * list nat :=
  match n with
  | 0 => ([], l, g)
  | S n' =>
    let '(j, g') := randbelow (length l) g in
    match l !! j with
    | Some x =>
      let '(d, r, g'') := draw n' (delete j l) g' in (x :: d, r, g'')
    | None => ([], l, g')
    end
  end.

Definition tape_shuffle {A : Type} (l : list A) (g : list nat) : list A * list nat :=
  let '(d, r, g') := draw (length l) l g in (d ++ r, g').

Definition tape_sample {A : Type} (l : list A) (k : nat) (g : list nat)
  : result (list A * list nat) :=
  if decide (k ≤ length l)
  then let '(d, _, g') := draw k l g in Ok (d, g')
  else Raise ValueError.

Global Instance random : Random (list nat) :=
  {| choice := @tape_choice; shuffle := @tape_shuffle;
     sample := @tape_sample |}.

End Tape.

(** ** Python strings *)

(** [w[i]] *)
Definition str_index (w : string) (i : nat) : result ascii :=
  match String.get i w with
  | Some c => Ok c
  | None => Raise IndexError
  end.

(** [str.isspace] on ASCII: TAB, LF, VT, FF, CR, FS, GS, RS, US, SPACE. *)
Definition is_space (c : ascii) : bool :=
  let n := nat_of_ascii c in
  ((9 <=? n) && (n <=? 13)) || ((28 <=? n) && (n <=? 32)).

Definition is_upper (c : ascii) : bool :=
  let n := nat_of_ascii c in (65 <=? n) && (n <=? 90).

Definition is_lower (c : ascii) : bool :=
  let n := nat_of_ascii c in (97 <=? n) && (n <=? 122).

Definition is_alpha (c : ascii) : bool := is_upper c || is_lower c.

Definition lower_char (c : ascii) : ascii :=
  if is_upper c then ascii_of_nat (nat_of_ascii c + 32) else c.

Fixpoint lstrip (l : list ascii) : list ascii :=
  match l with
  | c :: l' => if is_space c then lstrip l' else l
  | [] => []
  end.

(** [s.strip()] *)
Definition strip (s : string) : string :=
  string_of_list_ascii
    (rev (lstrip (rev (lstrip (list_ascii_of_string s))))).

(** [s.lower()] *)
Definition lower (s : string) : string :=
  string_of_list_ascii (lower_char <$> list_ascii_of_string s).

(** [s.isalpha()]: at least one character, all of them alphabetic. *)
Definition isalpha (s : string) : bool :=
  match list_ascii_of_string s with
  | [] => false
  | l => forallb is_alpha l
  end.

(** [enumerate(w)] *)
Fixpoint enumerate_from {A : Type} (i : nat) (l : list A) : list (nat * A) :=
  match l with
  | [] => []
  | x :: l' => (i, x) :: enumerate_from (S i) l'
  end.

Definition enumerate (w : string) : list (nat * ascii) :=
  enumerate_from 0 (list_ascii_of_string w).

(** * waffle_maker.py *)

(** 1 = letter cell, 0 = hole *)
Definition VALID_MASK : list (list nat) :=
  [ [1;1;1;1;1];
    [1;0;1;0;1];
    [1;1;1;1;1];
    [1;0;1;0;1];
    [1;1;1;1;1] ].

(** ** load_words *)

(** The file is given by its lines, as iterating the file object yields
    them. *)
Definition load_words (fh : list string) : list string :=
  let raw := (λ w, lower (strip w)) <$> filter (λ w, strip w ≠ "") fh in
  let words :=
    filter (λ w, String.length w = 5 ∧ isalpha w = true) raw in
  merge_sort String.le words.

(** ** build_pos_index *)

Abbreviation pos_index := (gmap (nat * ascii) (list string)).

(** [pos_index.get(key, [])] *)
Definition posting (idx : pos_index) (key : nat * ascii) : list string :=
  default [] (idx !! key).

(** [pos_index[key].append(w)] on a [defaultdict(list)] *)
Definition index_append (idx : pos_index) (key : nat * ascii) (w : string)
  : pos_index :=
  <[key := posting idx key ++ [w]]> idx.

Definition build_pos_index (words : list string) : pos_index :=
  foldl (λ idx w, foldl (λ idx key, index_append idx key w) idx (enumerate w))
        ∅ words.

(** ** candidates_with_constraints *)

(** The constraint dict [{pos: letter}], in insertion order. *)
Abbreviation constraints := (list (nat * ascii)).

(** The inner loop: [ok] is [False] at the first constraint that [w]
    misses. *)
Fixpoint check_constraints (w : string) (cs : constraints) : result bool :=
  match cs with
  | [] => Ok true
  | (pos, ch) :: cs' =>
    c ← str_index w pos;
    if decide (c ≠ ch) then Ok false else check_constraints w cs'
  end.

(** The loop over [base]. *)
Fixpoint filter_base (base : list string) (cs : constraints)
    (used : gset string) (res : list string) : result (list string) :=
  match base with
  | [] => Ok res
  | w :: base' =>
    if decide (w ∈ used) then filter_base base' cs used res
    else
      ok ← check_constraints w cs;
      filter_base base' cs used (if ok : bool then res ++ [w] else res)
  end.

(** [list.sort(key=len)] is stable: equal keys keep their order. *)
Fixpoint insert_by_len {A : Type} (x : list A) (ls : list (list A))
  : list (list A) :=
  match ls with
  | [] => [x]
  | y :: ls' =>
    if decide (length x ≤ length y) then x :: ls
    else y :: insert_by_len x ls'
  end.

Definition sort_by_len {A : Type} (ls : list (list A)) : list (list A) :=
  foldr insert_by_len [] ls.

Section CandidateFilter.
Context {G : Type} `{Random G}.

Definition candidates_with_constraints (words : list string)
    (idx : pos_index) (cs : constraints) (used : gset string) (g : G)
  : result (list string * G) :=
  match cs with
  | [] =>
    let cand := filter (λ w, w ∉ used) words in
    Ok (shuffle cand g)
  | _ =>
    let posting_lists := posting idx <$> cs in
    match sort_by_len posting_lists with
    | [] => Ok ([], g)
    | base :: rest =>
      res ← filter_base base cs used [];
      Ok (shuffle res g)
    end
  end.


End CandidateFilter.

(** ** build_waffle *)

(** Control flow of a loop body inside a function: [return r] leaves the
    function, otherwise the loop goes on with the updated state. *)
Inductive flow (R S : Type) : Type :=
| Returned (r : R)
| Continue (s : S).
Arguments Returned {R S} r.
Arguments Continue {R S} s.

(** [for x in xs: body] *)
Fixpoint for_each {X R S : Type} (body : X → S → result (flow R S))
    (xs : list X) (s : S) : result (flow R S) :=
  match xs with
  | [] => Ok (Continue s)
  | x :: xs' =>
    f ← body x s;
    match f with
    | Returned r => Ok (Returned r)
    | Continue s' => for_each body xs' s'
    end
  end.

(** [for x in xs: body], for a body without [return]. *)
Fixpoint for_in {X S : Type} (body : X → S → result S)
    (xs : list X) (s : S) : result S :=
  match xs with
  | [] => Ok s
  | x :: xs' => s' ← body x s; for_in body xs' s'
  end.

(** [used.remove(w)] raises [KeyError] when [w] is absent. *)
Definition set_remove (w : string) (used : gset string)
  : result (gset string) :=
  if decide (w ∈ used) then Ok (used ∖ {[w]}) else Raise KeyError.

(** A cell of the raw grid is [None] or a one-character string. *)
Abbreviation grid := (list (list (option ascii))).

(** [grid[r][c] = v] *)
Definition set_cell (gr : grid) (r c : nat) (v : option ascii) : result grid :=
  match gr !! r with
  | Some row =>
    if decide (c < length row) then Ok (<[r := <[c := v]> row]> gr)
    else Raise IndexError
  | None => Raise IndexError
  end.

(** [grid[r][c] = w[i]] *)
Definition put_letter (r c : nat) (w : string) (i : nat) (gr : grid)
  : result grid :=
  ch ← str_index w i; set_cell gr r c (Some ch).

Definition across_words : Type := string * string * string.
Definition down_words : Type := string * string * string.
Definition waffle : Type := grid * across_words * down_words.

Definition assemble (w0 w1 w2 w3 w4 w5 : string) : result waffle :=
  let gr : grid := replicate 5 (replicate 5 None) in
  gr ← for_in (λ c gr,
          gr ← put_letter 0 c w0 c gr;
          gr ← put_letter 2 c w2 c gr;
          put_letter 4 c w4 c gr) (seq 0 5) gr;
  gr ← for_in (λ r gr,
          gr ← put_letter r 0 w1 r gr;
          gr ← put_letter r 2 w3 r gr;
          put_letter r 4 w5 r gr) (seq 0 5) gr;
  Ok (gr, (w0, w2, w4), (w1, w3, w5)).

Section Search.
Context {G : Type} `{Random G}.

(** The state the nested loops share: the [used] set and the generator. *)
Definition search_state : Type := gset string * G.

(** Body of [for w4 in c4]. *)
Definition try_w4 (words : list string) (idx : pos_index)
    (w0 w1 w2 w3 w4 : string) (st : search_state)
  : result (flow (waffle * G) search_state) :=
  let '(used, g) := st in
  let used := {[w4]} ∪ used in
  a ← str_index w0 4; b ← str_index w2 4; c ← str_index w4 4;
  '(c5, g) ← candidates_with_constraints words idx
                [(0, a); (2, b); (4, c)] used g;
  match c5 with
  | [] => used ← set_remove w4 used; Ok (Continue (used, g))
  | w5 :: _ =>
    let used := {[w5]} ∪ used in
    wf ← assemble w0 w1 w2 w3 w4 w5;
    Ok (Returned (wf, g))
  end.

(** Body of [for w3 in c3]. *)
Definition try_w3 (words : list string) (idx : pos_index)
    (w0 w1 w2 w3 : string) (st : search_state)
  : result (flow (waffle * G) search_state) :=
  let '(used, g) := st in
  let used := {[w3]} ∪ used in
  a ← str_index w1 4; b ← str_index w3 4;
  '(c4, g) ← candidates_with_constraints words idx [(0, a); (2, b)] used g;
  match c4 with
  | [] => used ← set_remove w3 used; Ok (Continue (used, g))
  | _ =>
    f ← for_each (try_w4 words idx w0 w1 w2 w3) c4 (used, g);
    match f with
    | Returned r => Ok (Returned r)
    | Continue (used, g) =>
      used ← set_remove w3 used; Ok (Continue (used, g))
    end
  end.

(** Body of [for w2 in c2]. *)
Definition try_w2 (words : list string) (idx : pos_index)
    (w0 w1 w2 : string) (st : search_state)
  : result (flow (waffle * G) search_state) :=
  let '(used, g) := st in
  let used := {[w2]} ∪ used in
  a ← str_index w0 2; b ← str_index w2 2;
  '(c3, g) ← candidates_with_constraints words idx [(0, a); (2, b)] used g;
  match c3 with
  | [] => used ← set_remove w2 used; Ok (Continue (used, g))
  | _ =>
    f ← for_each (try_w3 words idx w0 w1 w2) c3 (used, g);
    match f with
    | Returned r => Ok (Returned r)
    | Continue (used, g) =>
      used ← set_remove w2 used; Ok (Continue (used, g))
    end
  end.

(** Body of [for w1 in c1]. *)
Definition try_w1 (words : list string) (idx : pos_index)
    (w0 w1 : string) (st : search_state)
  : result (flow (waffle * G) search_state) :=
  let '(used, g) := st in
  let used := {[w1]} ∪ used in
  a ← str_index w1 2;
  '(c2, g) ← candidates_with_constraints words idx [(0, a)] used g;
  match c2 with
  | [] => used ← set_remove w1 used; Ok (Continue (used, g))
  | _ =>
    f ← for_each (try_w2 words idx w0 w1) c2 (used, g);
    match f with
    | Returned r => Ok (Returned r)
    | Continue (used, g) =>
      used ← set_remove w1 used; Ok (Continue (used, g))
    end
  end.

(** The body of [for _ in range(max_attempts_per_level)] returns on every
    path, so the loop runs its body once, or not at all when the bound
    is [0]. *)
Definition build_waffle (words : list string) (idx : pos_index)
    (max_attempts_per_level : nat) (g : G) : result (option waffle * G) :=
  let used : gset string := ∅ in
  let all_words := words in
  '(w0, g) ← choice all_words g;
  let used := {[w0]} ∪ used in
  match max_attempts_per_level with
  | 0 => Ok (None, g)
  | S _ =>
    a ← str_index w0 0;
    '(c1, g) ← candidates_with_constraints all_words idx [(0, a)] used g;
    match c1 with
    | [] => Ok (None, g)
    | _ =>
      f ← for_each (try_w1 all_words idx w0) c1 (used, g);
      match f with
      | Returned (wf, g) => Ok (Some wf, g)
      | Continue (_, g) => Ok (None, g)
      end
    end
  end.


End Search.

(** ** grid_to_masked, masked_to_flat21, waffle_to_example *)

(** [m[r][c]] on a list of lists *)
Definition at2 {A : Type} (m : list (list A)) (r c : nat) : result A :=
  match m !! r with
  | Some row =>
    match row !! c with
    | Some v => Ok v
    | None => Raise IndexError
    end
  | None => Raise IndexError
  end.

Definition grid_to_masked (gr : grid) : result grid :=
  for_in (λ r out,
    row ← for_in (λ c row,
             m ← at2 VALID_MASK r c;
             if decide (m ≠ 0)
             then v ← at2 gr r c; Ok (row ++ [v])
             else Ok (row ++ [Some "#"%char])) (seq 0 5) [];
    Ok (out ++ [row])) (seq 0 5) [].

(** ["".join(chars)] raises [TypeError] on an item that is not a [str]. *)
Fixpoint join (chars : list (option ascii)) : result string :=
  match chars with
  | [] => Ok ""
  | Some ch :: chars' => s ← join chars'; Ok (String ch s)
  | None :: _ => Raise TypeError
  end.

Definition masked_to_flat21 (masked_grid : grid) : result string :=
  chars ← for_in (λ r chars,
             for_in (λ c chars,
               v ← at2 masked_grid r c;
               if decide (v ≠ Some "#"%char) then Ok (chars ++ [v])
               else Ok chars) (seq 0 5) chars) (seq 0 5) [];
  join chars.

Record example : Type := {
  ex_grid : grid;
  ex_across : list string;
  ex_down : list string;
  ex_flat21 : string
}.

Definition waffle_to_example (wf : waffle) : result example :=
  let '(gr, (a0, a1, a2), (d0, d1, d2)) := wf in
  masked ← grid_to_masked gr;
  flat ← masked_to_flat21 masked;
  Ok {| ex_grid := masked; ex_across := [a0; a1; a2];
        ex_down := [d0; d1; d2]; ex_flat21 := flat |}.

(** ** LETTER2IDX, IDX2LETTER, encode_flat21_to_ints, valid_cell_mask21 *)

(** [d[key]] raises [KeyError] on a missing key. *)
Definition dict_get `{Countable K} {V : Type} (d : gmap K V) (key : K)
  : result V :=
  match d !! key with
  | Some v => Ok v
  | None => Raise KeyError
  end.

(** The items [(c, i+1)] of the comprehension over
    [enumerate("abcdefghijklmnopqrstuvwxyz")], in insertion order. *)
Definition letter_items : list (ascii * nat) :=
  (λ ic : nat * ascii, (ic.2, ic.1 + 1)) <$>
    enumerate "abcdefghijklmnopqrstuvwxyz".

Definition LETTER2IDX : gmap ascii nat :=
  foldl (λ d ci, <[ci.1 := ci.2]> d) ∅ letter_items.

(** [{i: c for c, i in LETTER2IDX.items()}]; the keys of [LETTER2IDX] are
    distinct, so its items are [letter_items]. *)
Definition IDX2LETTER : gmap nat ascii :=
  foldl (λ d ci, <[ci.2 := ci.1]> d) ∅ letter_items.

(** [[LETTER2IDX[ch] for ch in flat21]] *)
Fixpoint encode_chars (chars : list ascii) : result (list nat) :=
  match chars with
  | [] => Ok []
  | ch :: chars' =>
    i ← dict_get LETTER2IDX ch;
    rest ← encode_chars chars';
    Ok (i :: rest)
  end.

Definition encode_flat21_to_ints (flat21 : string) : result (list nat) :=
  encode_chars (list_ascii_of_string flat21).

Definition valid_cell_mask21 : result (list nat) :=
  for_in (λ r mask,
    for_in (λ c mask,
      m ← at2 VALID_MASK r c;
      if decide (m ≠ 0) then Ok (mask ++ [1]) else Ok mask)
      (seq 0 5) mask) (seq 0 5) [].

(** ** generate_many *)

Section Driver.
Context {G : Type} `{Random G}.

Record gen_state : Type := {
  tries : nat;
  successes : nat;
  outf : list example;
  rng : G
}.

(** [while successes < n and tries < max_tries]; [budget] is
    [max_tries - tries], the variant of the loop. *)
Fixpoint generate_loop (words : list string) (idx : pos_index) (n : nat)
    (budget : nat) (st : gen_state) : result gen_state :=
  match budget with
  | 0 => Ok st
  | S budget' =>
    if decide (successes st < n) then
      let tries' := tries st + 1 in
      '(attempt, g) ← build_waffle words idx 2000 (rng st);
      match attempt with
      | None =>
        generate_loop words idx n budget'
          {| tries := tries'; successes := successes st;
             outf := outf st; rng := g |}
      | Some wf =>
        masked ← grid_to_masked wf.1.1;
        ex ← waffle_to_example wf;
        generate_loop words idx n budget'
          {| tries := tries'; successes := successes st + 1;
             outf := outf st ++ [ex]; rng := g |}
      end
    else Ok st
  end.

(** The word file is given by its lines; the result carries the two
    counters of the final report and the records written. *)
Definition generate_many (fh : list string) (n max_tries : nat) (g : G)
  : result gen_state :=
  let words := load_words fh in
  let idx := build_pos_index words in
  generate_loop words idx n max_tries
    {| tries := 0; successes := 0; outf := []; rng := g |}.

End Driver.

(** * waffle_mixer.py *)

(** The loop that rebuilds the string: fixed positions keep their letter,
    the others take the letters of [to_shuffle] in order. *)
Definition reassemble (flat21 : string) (fixed_positions : gset nat)
    (to_shuffle : list ascii) (indices : list nat) : result string :=
  '(shuffled, _) ← for_in (λ i '(shuffled, shuffled_ind),
      if decide (i ∈ fixed_positions)
      then ch ← str_index flat21 i; Ok (shuffled ++ [ch], shuffled_ind)
      else
        match to_shuffle !! shuffled_ind with
        | Some ch => Ok (shuffled ++ [ch], shuffled_ind + 1)
        | None => Raise IndexError
        end) indices ([], 0);
  Ok (string_of_list_ascii shuffled).

(** The loop [for i in fixed_positions: fixed_map[i] = flat21[i]]. *)
Definition build_fixed_map (flat21 : string) (fixed_positions : gset nat)
  : result (gmap nat ascii) :=
  for_in (λ i (fixed_map : gmap nat ascii),
            ch ← str_index flat21 i; Ok (<[i := ch]> fixed_map))
         (elements fixed_positions) ∅.

(** The loop that collects the letters outside [fixed_map]. *)
Definition collect_to_shuffle (flat21 : string) (fixed_map : gmap nat ascii)
    (indices : list nat) : result (list ascii) :=
  for_in (λ i to_shuffle,
            if decide (fixed_map !! i = None)
            then ch ← str_index flat21 i; Ok (to_shuffle ++ [ch])
            else Ok to_shuffle) indices [].

Section Mixer.
Context {G : Type} `{Random G}.

Definition shuffler (flat21 : string) (fixed_count : nat) (g : G)
  : result (string * list nat * G) :=
  let indices := seq 0 (String.length flat21) in
  '(smp, g) ← sample indices fixed_count g;
  let fixed_positions : gset nat := list_to_set smp in
  fixed_map ← build_fixed_map flat21 fixed_positions;
  to_shuffle ← collect_to_shuffle flat21 fixed_map indices;
  let '(to_shuffle, g) := shuffle to_shuffle g in
  shuffled_str ← reassemble flat21 fixed_positions to_shuffle indices;
  if decide (shuffled_str = flat21) then
    let '(to_shuffle, g) := shuffle to_shuffle g in
    shuffled_str ← reassemble flat21 fixed_positions to_shuffle indices;
    Ok (shuffled_str, merge_sort (≤) (elements fixed_positions), g)
  else
    Ok (shuffled_str, merge_sort (≤) (elements fixed_positions), g).

End Mixer.

(** ** main *)

Definition fixed_number : nat := 5.

(** A line of the output file. *)
Record entry : Type := {
  en_target_flat21 : string;
  en_shuffled_flat21 : string;
  en_fixed_indices : list nat;
  en_target_grid : grid
}.

Section MixerMain.
Context {G : Type} `{Random G}.

(** The input file is given by its parsed lines, the records that
    [generate_many] writes; the result is the list of lines written. *)
Definition main (puzzles : list example) (g : G) : result (list entry * G) :=
  for_in (λ p '(f_out, g),
      let target_flat := ex_flat21 p in
      '(shuffled_flat, fixed_positions, g) ←
        shuffler target_flat fixed_number g;
      let entry := {| en_target_flat21 := target_flat;
                      en_shuffled_flat21 := shuffled_flat;
                      en_fixed_indices := fixed_positions;
                      en_target_grid := ex_grid p |} in
      Ok (f_out ++ [entry], g)) puzzles ([], g).

End MixerMain.

(** * Predicates of the specification *)

(** A word meets every constraint of the map: it has the letter [ch] at
    each constrained position [pos]. *)
Definition satisfies (w : string) (cs : constraints) : Prop :=
  Forall (λ pc, String.get pc.1 w = Some pc.2) cs.

Global Instance satisfies_dec (w : string) (cs : constraints) :
  Decision (satisfies w cs).
Proof. unfold satisfies. apply _. Defined.

(** Two words cross: letter [i] of [w] is letter [j] of [v]. *)
Definition agree (w : string) (i : nat) (v : string) (j : nat) : Prop :=
  ∃ ch, String.get i w = Some ch ∧ String.get j v = Some ch.

(** The nine intersection constraints of the grid. *)
Definition intersections (w0 w1 w2 w3 w4 w5 : string) : Prop :=
  agree w1 0 w0 0 ∧
  agree w2 0 w1 2 ∧
  agree w3 0 w0 2 ∧ agree w3 2 w2 2 ∧
  agree w4 0 w1 4 ∧ agree w4 2 w3 4 ∧
  agree w5 0 w0 4 ∧ agree w5 2 w2 4 ∧ agree w5 4 w4 4.

Section SearchPath.
Context {G : Type} `{Random G}.

(** [w] is one of the candidates some call returned for the constraint
    map [cs] and the exclusion set [used]. *)
Definition is_candidate (words : list string) (idx : pos_index)
    (cs : constraints) (used : gset string) (w : string) : Prop :=
  ∃ (g g' : G) res,
    candidates_with_constraints words idx cs used g = Ok (res, g') ∧
    w ∈ res.

(** One step of the search: the letters the chosen words impose, and a
    candidate for them. *)
Definition step1 (words : list string) (idx : pos_index)
    (w0 : string) (used : gset string) (w1 : string) : Prop :=
  ∃ a, String.get 0 w0 = Some a ∧
       is_candidate words idx [(0, a)] used w1.

Definition step2 (words : list string) (idx : pos_index)
    (w1 : string) (used : gset string) (w2 : string) : Prop :=
  ∃ a, String.get 2 w1 = Some a ∧
       is_candidate words idx [(0, a)] used w2.

Definition step3 (words : list string) (idx : pos_index)
    (w0 w2 : string) (used : gset string) (w3 : string) : Prop :=
  ∃ a b, String.get 2 w0 = Some a ∧ String.get 2 w2 = Some b ∧
         is_candidate words idx [(0, a); (2, b)] used w3.

Definition step4 (words : list string) (idx : pos_index)
    (w1 w3 : string) (used : gset string) (w4 : string) : Prop :=
  ∃ a b, String.get 4 w1 = Some a ∧ String.get 4 w3 = Some b ∧
         is_candidate words idx [(0, a); (2, b)] used w4.

Definition step5 (words : list string) (idx : pos_index)
    (w0 w2 w4 : string) (used : gset string) (w5 : string) : Prop :=
  ∃ a b c, String.get 4 w0 = Some a ∧ String.get 4 w2 = Some b ∧
           String.get 4 w4 = Some c ∧
           is_candidate words idx [(0, a); (2, b); (4, c)] used w5.

(** The choices along the successful branch of the search: each word is
    a candidate for the constraints its predecessors impose, with all of
    them excluded. *)
Definition search_path (words : list string) (idx : pos_index)
    (w0 w1 w2 w3 w4 w5 : string) : Prop :=
  let u0 : gset string := {[w0]} ∪ ∅ in
  let u1 := {[w1]} ∪ u0 in
  let u2 := {[w2]} ∪ u1 in
  let u3 := {[w3]} ∪ u2 in
  let u4 := {[w4]} ∪ u3 in
  w0 ∈ words ∧
  step1 words idx w0 u0 w1 ∧
  step2 words idx w1 u1 w2 ∧
  step3 words idx w0 w2 u2 w3 ∧
  step4 words idx w1 w3 u3 w4 ∧
  step5 words idx w0 w2 w4 u4 w5.

End SearchPath.

(** Cell [(r, c)] of the grid holds letter [i] of the word [w]. *)
Definition letter_at (gr : grid) (r c : nat) (w : string) (i : nat) : Prop :=
  ∃ ch, String.get i w = Some ch ∧ at2 gr r c = Ok (Some ch).

(** The four hole cells. *)
Definition holes : list (nat * nat) := [(1, 1); (1, 3); (3, 1); (3, 3)].

(** What the raw grid of a build holds: the across words on rows 0, 2, 4,
    the down words on columns 0, 2, 4, and [None] at the four holes. *)
Definition raw_grid (gr : grid) (w0 w1 w2 w3 w4 w5 : string) : Prop :=
  length gr = 5 ∧ Forall (λ row, length row = 5) gr ∧
  (∀ i, i < 5 →
     letter_at gr 0 i w0 i ∧ letter_at gr 2 i w2 i ∧ letter_at gr 4 i w4 i ∧
     letter_at gr i 0 w1 i ∧ letter_at gr i 2 w3 i ∧ letter_at gr i 4 w5 i) ∧
  Forall (λ rc, at2 gr rc.1 rc.2 = Ok None) holes.

(** The four hole cells of a masked grid hold ['#']. *)
Definition holes_marked (masked : grid) : Prop :=
  Forall (λ rc, at2 masked rc.1 rc.2 = Ok (Some "#"%char)) holes.


(** A word of the data model: five lowercase letters. *)
Definition is_word (w : string) : Prop :=
  String.length w = 5 ∧
  forallb is_lower (list_ascii_of_string w) = true.

Global Instance is_word_dec (w : string) : Decision (is_word w).
Proof. unfold is_word. apply _. Defined.

(** A masked grid: ['#'] at exactly the four holes, a letter elsewhere. *)
Definition masked_ok (masked : grid) : Prop :=
  length masked = 5 ∧ Forall (λ row, length row = 5) masked ∧
  ∀ r c, r < 5 → c < 5 →
    ∃ ch, at2 masked r c = Ok (Some ch) ∧
          (ch = "#"%char ↔ (r, c) ∈ holes) ∧
          ((r, c) ∉ holes → is_lower ch = true).

(** Modelled from the spec: the re-expansion of a 21-character string
    into a masked grid is not part of the code; it places the characters
    back in row-major order, skipping the cells the hole mask marks, which
    get ['#']. *)
Fixpoint expand_row (mask_row : list nat) (chars : list ascii)
  : option (list (option ascii) * list ascii) :=
  match mask_row with
  | [] => Some ([], chars)
  | m :: mask_row' =>
    if decide (m ≠ 0) then
      match chars with
      | ch :: chars' =>
        '(row, rest) ← expand_row mask_row' chars';
        Some (Some ch :: row, rest)
      | [] => None
      end
    else
      '(row, rest) ← expand_row mask_row' chars;
      Some (Some "#"%char :: row, rest)
  end.

Fixpoint expand_rows (mask : list (list nat)) (chars : list ascii)
  : option (grid * list ascii) :=
  match mask with
  | [] => Some ([], chars)
  | mask_row :: mask' =>
    '(row, rest) ← expand_row mask_row chars;
    '(rows, rest') ← expand_rows mask' rest;
    Some (row :: rows, rest')
  end.

(** The whole string must be used up by the 21 letter cells. *)
Definition flat21_to_masked (flat21 : string) : option grid :=
  '(masked, rest) ← expand_rows VALID_MASK (list_ascii_of_string flat21);
  match rest with
  | [] => Some masked
  | _ => None
  end.

(** A cell agrees with its mask entry: a character other than ['#'] on a
    letter cell, ['#'] on a hole. *)
Definition cell_ok (m : nat) (v : option ascii) : Prop :=
  if decide (m ≠ 0) then ∃ ch, v = Some ch ∧ ch ≠ "#"%char
  else v = Some "#"%char.

(** The letters of [l], read from index [a] on, at the positions that
    [keep] selects. *)
Fixpoint select_from (keep : nat → bool) (a : nat) (l : list ascii)
  : list ascii :=
  match l with
  | [] => []
  | c :: l' =>
    if keep a then c :: select_from keep (S a) l'
    else select_from keep (S a) l'
  end.

(** The letters of a string at the positions outside [fixed], in index
    order. *)
Definition nonfixed_letters (fixed : list nat) (s : string) : list ascii :=
  select_from (λ i, bool_decide (i ∉ fixed)) 0 (list_ascii_of_string s).

(** The letters of [l] with those at the selected positions replaced, in
    order, by the letters of [ts]. *)
Fixpoint merge_from (keep : nat → bool) (a : nat) (l ts : list ascii)
  : list ascii :=
  match l with
  | [] => []
  | c :: l' =>
    if keep a then
      match ts with
      | t :: ts' => t :: merge_from keep (S a) l' ts'
      | [] => []
      end
    else c :: merge_from keep (S a) l' ts
  end.

(** What a scramble of [target] with [fixed_count] fixed positions must
    be. *)
Definition scramble_ok (target : string) (fixed_count : nat)
    (shuffled : string) (fixed_indices : list nat) : Prop :=
  String.length shuffled = String.length target ∧
  (∀ i, i ∈ fixed_indices → String.get i shuffled = String.get i target) ∧
  nonfixed_letters fixed_indices shuffled
    ≡ₚ nonfixed_letters fixed_indices target ∧
  length fixed_indices = fixed_count ∧
  NoDup fixed_indices ∧
  (∀ i, i ∈ fixed_indices → i < String.length target) ∧
  StronglySorted (≤) fixed_indices.

(** The ways to go on from a partial choice of words: a next word of the
    list, not yet used, that crosses the chosen ones, and so on down to
    the sixth word. *)
Definition ext5 (words : list string) (w0 w2 w4 : string)
    (used : gset string) : Prop :=
  ∃ w5, w5 ∈ words ∧ (w5 ∉ used) ∧
        agree w5 0 w0 4 ∧ agree w5 2 w2 4 ∧ agree w5 4 w4 4.

Definition ext4 (words : list string) (w0 w1 w2 w3 : string)
    (used : gset string) : Prop :=
  ∃ w4, w4 ∈ words ∧ (w4 ∉ used) ∧
        agree w4 0 w1 4 ∧ agree w4 2 w3 4 ∧
        ext5 words w0 w2 w4 ({[w4]} ∪ used).

Definition ext3 (words : list string) (w0 w1 w2 : string)
    (used : gset string) : Prop :=
  ∃ w3, w3 ∈ words ∧ (w3 ∉ used) ∧
        agree w3 0 w0 2 ∧ agree w3 2 w2 2 ∧
        ext4 words w0 w1 w2 w3 ({[w3]} ∪ used).

Definition ext2 (words : list string) (w0 w1 : string)
    (used : gset string) : Prop :=
  ∃ w2, w2 ∈ words ∧ (w2 ∉ used) ∧
        agree w2 0 w1 2 ∧
        ext3 words w0 w1 w2 ({[w2]} ∪ used).

Definition ext1 (words : list string) (w0 : string)
    (used : gset string) : Prop :=
  ∃ w1, w1 ∈ words ∧ (w1 ∉ used) ∧
        agree w1 0 w0 0 ∧
        ext2 words w0 w1 ({[w1]} ∪ used).

(** [w0] can be completed to a solved grid with words of the list. *)
Definition completes (words : list string) (w0 : string) : Prop :=
  ∃ w1 w2 w3 w4 w5,
    Forall (λ w, w ∈ words) [w1; w2; w3; w4; w5] ∧
    intersections w0 w1 w2 w3 w4 w5 ∧
    NoDup [w0; w1; w2; w3; w4; w5].

(** The three-letter string of the letters at index [i] of three words. *)
Definition letters3 (a b c : string) (i : nat) : option string :=
  x ← String.get i a; y ← String.get i b; z ← String.get i c;
  Some (String x (String y (String z ""))).

(** What the record of a solved waffle holds: the masked grid, the across
    and down words, and a 21-letter string laid out as row 0, the three
    letters of row 1, row 2, the three letters of row 3, row 4. *)
Definition example_ok (ex : example) (w0 w1 w2 w3 w4 w5 : string) : Prop :=
  masked_ok (ex_grid ex) ∧
  ex_across ex = [w0; w2; w4] ∧
  ex_down ex = [w1; w3; w5] ∧
  String.length (ex_flat21 ex) = 21 ∧
  forallb is_lower (list_ascii_of_string (ex_flat21 ex)) = true ∧
  ∃ m1 m2,
    letters3 w1 w3 w5 1 = Some m1 ∧ letters3 w1 w3 w5 3 = Some m2 ∧
    ex_flat21 ex
    = String.append w0 (String.append m1 (String.append w2
        (String.append m2 w4))).

(** The number of a lowercase letter: 1 for [a], ..., 26 for [z]. *)
Definition letter_number (c : ascii) : nat := nat_of_ascii c - 96.

(** A record of [generate_many] is the record of six different words of
    the list that cross correctly. *)
Definition solved_record (words : list string) (ex : example) : Prop :=
  ∃ w0 w1 w2 w3 w4 w5,
    Forall (λ w, w ∈ words) [w0; w1; w2; w3; w4; w5] ∧
    intersections w0 w1 w2 w3 w4 w5 ∧
    NoDup [w0; w1; w2; w3; w4; w5] ∧
    example_ok ex w0 w1 w2 w3 w4 w5.

(** The output line of a puzzle: its target and grid, and a scramble of
    the target with [fixed_number] fixed positions. *)
Definition entry_ok (p : example) (e : entry) : Prop :=
  en_target_flat21 e = ex_flat21 p ∧
  en_target_grid e = ex_grid p ∧
  scramble_ok (ex_flat21 p) fixed_number
    (en_shuffled_flat21 e) (en_fixed_indices e).

(** * Sample data *)

(** Six words that fill a grid: rows [abcde], [ijklm], [qrstu] and
    columns [afinq], [cgkos], [ehmpu]. *)
Definition demo_words : list string :=
  ["abcde"; "afinq"; "ijklm"; "cgkos"; "qrstu"; "ehmpu"].

Definition demo_grid : grid :=
  let l (s : string) : option ascii := String.get 0 s in
  [ [l "a"; l "b"; l "c"; l "d"; l "e"];
    [l "f"; None;  l "g"; None;  l "h"];
    [l "i"; l "j"; l "k"; l "l"; l "m"];
    [l "n"; None;  l "o"; None;  l "p"];
    [l "q"; l "r"; l "s"; l "t"; l "u"] ].

Definition demo_masked : grid :=
  let l (s : string) : option ascii := String.get 0 s in
  [ [l "a"; l "b"; l "c"; l "d"; l "e"];
    [l "f"; l "#"; l "g"; l "#"; l "h"];
    [l "i"; l "j"; l "k"; l "l"; l "m"];
    [l "n"; l "#"; l "o"; l "#"; l "p"];
    [l "q"; l "r"; l "s"; l "t"; l "u"] ].


(** Draws that leave the first shuffle of three letters in place and
    make the second one swap the first two. *)
Definition redo_tape : list nat := [0; 0; 0; 0; 0; 1; 0; 0].

(** * Properties *)

(** ** The tape generator meets the contract of [random] *)

Module TapeFacts.
Import Tape.

Lemma randbelow_lt (n : nat) (g : list nat) :
  0 < n → (randbelow n g).1 < n.
Proof.
  intros Hn. destruct g as [|x g']; simpl; [done|].
  apply Nat.mod_upper_bound. lia.
Qed.

Lemma draw_spec {A : Type} (n : nat) (l : list A) (g : list nat) :
  (draw n l g).1.1 ++ (draw n l g).1.2 ≡ₚ l ∧
  (n ≤ length l → length (draw n l g).1.1 = n).
Proof.
  revert l g. induction n as [|n IH]; intros l g; simpl; [done|].
  destruct (randbelow (length l) g) as [j g'] eqn:Hrb.
  destruct (l !! j) as [x|] eqn:Hj.
  - specialize (IH (delete j l) g').
    destruct (draw n (delete j l) g') as [[d r] g'']. simpl in *.
    destruct IH as [IHp IHl]. split.
    + rewrite IHp. symmetry. by apply delete_Permutation.
    + intros Hle. f_equal. apply IHl.
      rewrite length_delete; [lia|by eexists].
  - simpl. split; [done|]. intros Hle.
    apply lookup_ge_None in Hj.
    pose proof (randbelow_lt (length l) g) as Hlt.
    rewrite Hrb in Hlt. simpl in Hlt. lia.
Qed.

Global Instance laws : RandomLaws (list nat).
Proof.
  split.
  - done.
  - intros A l g Hl. cbn. unfold tape_choice.
    destruct l as [|a l']; [done|].
    destruct (randbelow (length (a :: l')) g) as [j g'] eqn:Hrb.
    pose proof (randbelow_lt (length (a :: l')) g) as Hlt.
    rewrite Hrb in Hlt. simpl in Hlt.
    destruct (lookup_lt_is_Some_2 (a :: l') j) as [x Hx]; [simpl; lia|].
    rewrite Hx. exists x, g'. split; [done|].
    by eapply list_elem_of_lookup_2.
  - intros A l g. cbn. unfold tape_shuffle.
    pose proof (draw_spec (length l) l g) as [Hp _].
    by destruct (draw (length l) l g) as [[d r] g'].
  - intros A l k g Hk. cbn. unfold tape_sample.
    rewrite decide_True by done.
    pose proof (draw_spec k l g) as [Hp Hl].
    destruct (draw k l g) as [[d r] g']. simpl in *.
    exists d, r, g'. auto.
  - intros A l k g Hk. cbn. unfold tape_sample.
    rewrite decide_False by lia. done.
Qed.

End TapeFacts.

(** ** Strings and the position index *)

Lemma get_lookup (w : string) (i : nat) :
  String.get i w = list_ascii_of_string w !! i.
Proof.
  revert i. induction w as [|c w IH]; intros [|i]; simpl; auto.
Qed.

Lemma length_list_ascii (w : string) :
  length (list_ascii_of_string w) = String.length w.
Proof. induction w; simpl; auto. Qed.

Lemma str_index_Ok (w : string) (i : nat) (c : ascii) :
  str_index w i = Ok c ↔ String.get i w = Some c.
Proof.
  unfold str_index. destruct (String.get i w); split; intros; simplify_eq; done.
Qed.

Lemma str_index_lt (w : string) (i : nat) :
  i < String.length w → ∃ c, str_index w i = Ok c ∧ String.get i w = Some c.
Proof.
  intros Hi. unfold str_index. rewrite get_lookup.
  destruct (lookup_lt_is_Some_2 (list_ascii_of_string w) i) as [c Hc].
  { by rewrite length_list_ascii. }
  rewrite Hc. eauto.
Qed.

Lemma get_Some_lt (w : string) (i : nat) (c : ascii) :
  String.get i w = Some c → i < String.length w.
Proof.
  rewrite get_lookup, <- length_list_ascii. apply lookup_lt_Some.
Qed.

Lemma posting_index_append (idx : pos_index) (key key' : nat * ascii)
    (w : string) :
  posting (index_append idx key w) key' =
  posting idx key' ++ (if decide (key = key') then [w] else []).
Proof.
  unfold index_append, posting. case_decide as Hk.
  - subst. by rewrite lookup_insert_eq.
  - rewrite lookup_insert_ne by done. by rewrite app_nil_r.
Qed.

Lemma posting_enumerate (w : string) (l : list ascii) (a : nat)
    (idx : pos_index) (pos : nat) (ch : ascii) :
  posting (foldl (λ idx key, index_append idx key w) idx (enumerate_from a l))
          (pos, ch) =
  posting idx (pos, ch) ++
    (if decide (a ≤ pos ∧ l !! (pos - a) = Some ch) then [w] else []).
Proof.
  revert a idx. induction l as [|x l IH]; intros a idx; simpl.
  - rewrite decide_False; [by rewrite app_nil_r|]. intros [_ ?]. done.
  - rewrite IH, posting_index_append, <- app_assoc. f_equal.
    destruct (decide ((a, x) = (pos, ch))) as [Heq|Hne].
    + simplify_eq. rewrite Nat.sub_diag. simpl.
      rewrite decide_False by lia. by rewrite decide_True.
    + simpl. destruct (decide (pos = a)) as [->|Hpa].
      * rewrite Nat.sub_diag. simpl.
        rewrite decide_False by lia.
        rewrite decide_False; [done|]. intros [_ ?]. congruence.
      * destruct (decide (a ≤ pos)) as [Hle|Hgt].
        -- replace (pos - a) with (S (pos - S a)) by lia. simpl.
           destruct (decide (l !! (pos - S a) = Some ch)).
           ++ rewrite !decide_True; [done|split; [lia|done]..].
           ++ rewrite !decide_False; [done|intros [_ ?]; done..].
        -- rewrite !decide_False; [done|intros [? _]; lia..].
Qed.

(** The posting list of [(pos, ch)] holds, in the order of the word list
    and with multiplicity, the words that have [ch] at [pos]. *)
Lemma posting_build_pos_index (words : list string) (pos : nat) (ch : ascii) :
  posting (build_pos_index words) (pos, ch) =
  filter (λ w, String.get pos w = Some ch) words.
Proof.
  unfold build_pos_index.
  assert (∀ idx,
    posting (foldl (λ idx w,
               foldl (λ idx key, index_append idx key w) idx (enumerate w))
             idx words) (pos, ch) =
    posting idx (pos, ch) ++ filter (λ w, String.get pos w = Some ch) words)
    as Hgen.
  { induction words as [|w words IH]; intros idx; simpl.
    - by rewrite app_nil_r.
    - rewrite IH. unfold enumerate. rewrite posting_enumerate.
      rewrite <- app_assoc. f_equal. rewrite Nat.sub_0_r.
      rewrite filter_cons, get_lookup.
      destruct (decide (list_ascii_of_string w !! pos = Some ch)).
      + rewrite decide_True; [done|split; [lia|done]].
      + rewrite decide_False; [done|intros [_ ?]; done]. }
  rewrite Hgen. unfold posting. by rewrite lookup_empty.
Qed.

(** ** candidates_with_constraints *)

Lemma check_constraints_true (w : string) (cs : constraints) :
  check_constraints w cs = Ok true ↔ satisfies w cs.
Proof.
  unfold satisfies. induction cs as [|[pos ch] cs IH]; simpl.
  - split; [constructor|done].
  - rewrite Forall_cons. simpl. unfold str_index.
    destruct (String.get pos w) as [c|] eqn:Hg; simpl.
    + case_decide as Hc.
      * split; [done|]. intros [? _]. congruence.
      * subst. rewrite IH. tauto.
    + split; [done|]. intros [? _]. done.
Qed.

Lemma check_constraints_total (w : string) (cs : constraints) :
  (∀ pos ch, (pos, ch) ∈ cs → pos < String.length w) →
  ∃ b, check_constraints w cs = Ok b.
Proof.
  induction cs as [|[pos ch] cs IH]; intros Hlen; simpl; [eauto|].
  destruct (str_index_lt w pos) as (c & -> & _).
  { eapply Hlen. left. }
  simpl. case_decide; [eauto|].
  apply IH. intros pos' ch' Hin. eapply Hlen. by right.
Qed.

(** Whenever the loop over [base] ends without an exception, it has kept
    exactly the unused words of [base] that meet every constraint. *)
Lemma filter_base_Ok (base : list string) (cs : constraints)
    (used : gset string) (res out : list string) :
  filter_base base cs used res = Ok out →
  out = res ++ filter (λ w, satisfies w cs ∧ w ∉ used) base.
Proof.
  revert res. induction base as [|w base IH]; intros res; simpl.
  - intros [= <-]. by rewrite app_nil_r.
  - rewrite filter_cons. case_decide as Hu.
    + intros Hfb. apply IH in Hfb. rewrite decide_False; [done|].
      intros [_ ?]. done.
    + destruct (check_constraints w cs) as [[|]|e] eqn:Hck; simpl; [..|done].
      * intros Hfb. apply IH in Hfb. apply check_constraints_true in Hck.
        rewrite decide_True by done. by rewrite Hfb, <- app_assoc.
      * intros Hfb. apply IH in Hfb. rewrite decide_False; [done|].
        intros [Hs _]. apply check_constraints_true in Hs. congruence.
Qed.

Lemma filter_base_total (base : list string) (cs : constraints)
    (used : gset string) (res : list string) :
  (∀ w pos ch, w ∈ base → (pos, ch) ∈ cs → pos < String.length w) →
  ∃ out, filter_base base cs used res = Ok out.
Proof.
  revert res. induction base as [|w base IH]; intros res Hlen; simpl.
  - eauto.
  - assert (∀ w' pos ch, w' ∈ base → (pos, ch) ∈ cs →
                         pos < String.length w') as Hlen'.
    { intros w' pos ch Hin. apply Hlen. by right. }
    case_decide; [by apply IH|].
    destruct (check_constraints_total w cs) as [b ->].
    { intros pos ch. apply Hlen. left. }
    simpl. by apply IH.
Qed.

Lemma insert_by_len_perm {A : Type} (x : list A) (ls : list (list A)) :
  insert_by_len x ls ≡ₚ x :: ls.
Proof.
  induction ls as [|y ls IH]; simpl; [done|].
  case_decide; [done|]. rewrite IH. apply Permutation_swap.
Qed.

Lemma sort_by_len_perm {A : Type} (ls : list (list A)) :
  sort_by_len ls ≡ₚ ls.
Proof.
  induction ls as [|x ls IH]; simpl; [done|].
  by rewrite insert_by_len_perm, IH.
Qed.

Lemma insert_by_len_head {A : Type} (d x : list A) (ls : list (list A)) :
  Forall (λ y, length (hd x ls) ≤ length y) ls →
  Forall (λ y, length (hd d (insert_by_len x ls)) ≤ length y)
         (insert_by_len x ls).
Proof.
  destruct ls as [|y ls]; simpl; intros HF.
  - by constructor.
  - case_decide as Hle; simpl.
    + constructor; [done|].
      eapply Forall_impl; [exact HF|]. simpl. intros; lia.
    + inversion HF; subst. constructor; [done|].
      rewrite insert_by_len_perm. constructor; [lia|done].
Qed.

(** The base list is a shortest posting list. *)
Lemma sort_by_len_head {A : Type} (ls : list (list A)) :
  Forall (λ y, length (hd [] (sort_by_len ls)) ≤ length y) (sort_by_len ls).
Proof.
  induction ls as [|x ls IH]; simpl; [constructor|].
  destruct (sort_by_len ls) as [|y ls'] eqn:Hs; [by repeat constructor|].
  apply insert_by_len_head. exact IH.
Qed.

Section Candidates.
Context {G : Type} `{RandomLaws G}.

Lemma shuffle_elem {A : Type} (l res : list A) (g g' : G) (x : A) :
  shuffle l g = (res, g') → x ∈ res ↔ x ∈ l.
Proof.
  intros Hsh. pose proof (shuffle_perm l g) as Hp.
  rewrite Hsh in Hp. simpl in Hp. by rewrite Hp.
Qed.

(** The base list is the posting list of one of the constraints. *)
Lemma base_is_posting (idx : pos_index) (cs : constraints)
    (base : list string) (rest : list (list string)) :
  sort_by_len (posting idx <$> cs) = base :: rest →
  ∃ key, key ∈ cs ∧ base = posting idx key.
Proof.
  intros Hs.
  assert (base ∈ posting idx <$> cs) as Hin.
  { rewrite <- sort_by_len_perm, Hs. left. }
  apply list_elem_of_fmap in Hin as (key & -> & Hkey). eauto.
Qed.

(** Every candidate returned meets all the constraints and is unused,
    whatever the index holds. *)
Lemma candidates_sound (words : list string) (idx : pos_index)
    (cs : constraints) (used : gset string) (g g' : G)
    (res : list string) (w : string) :
  candidates_with_constraints words idx cs used g = Ok (res, g') →
  w ∈ res → satisfies w cs ∧ w ∉ used.
Proof.
  unfold candidates_with_constraints. destruct cs as [|c cs].
  - intros [= Hsh] Hw. apply (shuffle_elem _ _ _ _ _ Hsh) in Hw.
    apply list_elem_of_filter in Hw as [Hu _]. split; [constructor|done].
  - destruct (sort_by_len (posting idx <$> c :: cs)) as [|base rest];
      [intros [= <- <-] Hw; by apply elem_of_nil in Hw|].
    destruct (filter_base base (c :: cs) used []) as [out|e] eqn:Hfb;
      simpl; [|done].
    intros [= Hsh] Hw. apply (shuffle_elem _ _ _ _ _ Hsh) in Hw.
    apply filter_base_Ok in Hfb. simpl in Hfb. subst out.
    by apply list_elem_of_filter in Hw as [? _].
Qed.

(** With the index built from the word list, candidates are words of the
    list. *)
Lemma candidates_in_words (words : list string) (cs : constraints)
    (used : gset string) (g g' : G) (res : list string) (w : string) :
  candidates_with_constraints words (build_pos_index words) cs used g
    = Ok (res, g') →
  w ∈ res → w ∈ words.
Proof.
  unfold candidates_with_constraints. destruct cs as [|c cs].
  - intros [= Hsh] Hw. apply (shuffle_elem _ _ _ _ _ Hsh) in Hw.
    by apply list_elem_of_filter in Hw as [_ ?].
  - destruct (sort_by_len (posting (build_pos_index words) <$> c :: cs))
      as [|base rest] eqn:Hs;
      [intros [= <- <-] Hw; by apply elem_of_nil in Hw|].
    apply base_is_posting in Hs as ([pos ch] & _ & ->).
    rewrite posting_build_pos_index.
    match goal with |- context [filter_base ?b ?c ?u ?r] =>
      destruct (filter_base b c u r) as [out|e] eqn:Hfb end; simpl; [|done].
    intros [= Hsh] Hw. apply (shuffle_elem _ _ _ _ _ Hsh) in Hw.
    apply filter_base_Ok in Hfb. simpl in Hfb. subst out.
    apply list_elem_of_filter in Hw as [_ Hw].
    by apply list_elem_of_filter in Hw as [_ ?].
Qed.

(** No exception is raised when every constrained position lies inside
    every word. *)
Lemma candidates_total (words : list string) (cs : constraints)
    (used : gset string) (g : G) :
  (∀ w pos ch, w ∈ words → (pos, ch) ∈ cs → pos < String.length w) →
  ∃ res g',
    candidates_with_constraints words (build_pos_index words) cs used g
      = Ok (res, g').
Proof.
  intros Hlen. unfold candidates_with_constraints. destruct cs as [|c cs].
  - destruct (shuffle _ g) as [res g']. eauto.
  - destruct (sort_by_len (posting (build_pos_index words) <$> c :: cs))
      as [|base rest] eqn:Hs; [eauto|].
    apply base_is_posting in Hs as ([pos ch] & _ & ->).
    rewrite posting_build_pos_index.
    match goal with |- context [filter_base ?b ?c ?u ?r] =>
      destruct (filter_base_total b c u r) as [out ->] end.
    { intros w pos' ch' Hw. apply Hlen.
      by apply list_elem_of_filter in Hw as [_ ?]. }
    simpl. destruct (shuffle out g) as [res g']. eauto.
Qed.

(** C2. With a non-empty constraint map and the index built from the
    word list, [candidates_with_constraints] returns, up to order and
    with multiplicity, exactly the words of the list that satisfy every
    constraint of the map and are not in the exclusion set. The words
    are long enough for the constrained positions, as the 5-letter words
    and the positions 0..4 of the data model are. *)
Theorem candidates_exact (words : list string) (cs : constraints)
    (used : gset string) (g : G) :
  cs ≠ [] →
  (∀ w pos ch, w ∈ words → (pos, ch) ∈ cs → pos < String.length w) →
  ∃ res g',
    candidates_with_constraints words (build_pos_index words) cs used g
      = Ok (res, g') ∧
    res ≡ₚ filter (λ w, satisfies w cs ∧ w ∉ used) words ∧
    (∀ w, w ∈ res ↔ w ∈ words ∧ satisfies w cs ∧ w ∉ used).
Proof.
  intros Hcs Hlen.
  assert (∃ res g',
    candidates_with_constraints words (build_pos_index words) cs used g
      = Ok (res, g') ∧
    res ≡ₚ filter (λ w, satisfies w cs ∧ w ∉ used) words)
    as (res & g' & Hc & Hp).
  { unfold candidates_with_constraints. destruct cs as [|c cs]; [done|].
    destruct (sort_by_len (posting (build_pos_index words) <$> c :: cs))
      as [|base rest] eqn:Hs.
    { pose proof (sort_by_len_perm
        (posting (build_pos_index words) <$> c :: cs)) as Hp.
      rewrite Hs in Hp. by apply Permutation_nil_cons in Hp. }
    apply base_is_posting in Hs as ([pos ch] & Hkey & ->).
    rewrite posting_build_pos_index.
    match goal with |- context [filter_base ?b ?c ?u ?r] =>
      destruct (filter_base_total b c u r) as [out Hfb] end.
    { intros w pos' ch' Hw. apply Hlen.
      by apply list_elem_of_filter in Hw as [_ ?]. }
    rewrite Hfb. simpl. apply filter_base_Ok in Hfb. simpl in Hfb.
    destruct (shuffle out g) as [res g'] eqn:Hsh.
    exists res, g'. split; [done|].
    pose proof (shuffle_perm out g) as Hp. rewrite Hsh in Hp. simpl in Hp.
    rewrite Hp, Hfb, list_filter_filter_l; [done|].
    intros w [Hs _]. unfold satisfies in Hs.
    rewrite Forall_forall in Hs. by apply (Hs (pos, ch)). }
  exists res, g'. split; [done|]. split; [done|].
  intros w. rewrite Hp, list_elem_of_filter. tauto.
Qed.

End Candidates.

(** ** Loops *)

(** Invariant rule for a loop whose body may return. *)
Lemma for_each_spec {X R S : Type} (I : S → Prop) (Q : R → Prop)
    (body : X → S → result (flow R S)) (xs : list X) (s : S) :
  I s →
  (∀ x s, x ∈ xs → I s →
     match body x s with
     | Ok (Continue s') => I s'
     | Ok (Returned r) => Q r
     | Raise _ => True
     end) →
  match for_each body xs s with
  | Ok (Continue s') => I s'
  | Ok (Returned r) => Q r
  | Raise _ => True
  end.
Proof.
  revert s. induction xs as [|x xs IH]; intros s Hs Hbody; simpl; [done|].
  pose proof (Hbody x s (list_elem_of_here _ _) Hs) as Hx.
  destruct (body x s) as [[r|s']|e]; simpl; [done| |done].
  apply IH; [done|]. intros x' s0 Hin. apply Hbody. by right.
Qed.

(** A loop whose body never raises does not raise. *)
Lemma for_each_total {X R S : Type} (I : S → Prop)
    (body : X → S → result (flow R S)) (xs : list X) (s : S) :
  I s →
  (∀ x s, x ∈ xs → I s →
     ∃ f, body x s = Ok f ∧
          match f with Continue s' => I s' | Returned _ => True end) →
  ∃ f, for_each body xs s = Ok f ∧
       match f with Continue s' => I s' | Returned _ => True end.
Proof.
  revert s. induction xs as [|x xs IH]; intros s Hs Hbody; simpl; [eauto|].
  destruct (Hbody x s (list_elem_of_here _ _) Hs) as (f & -> & Hf). simpl.
  destruct f as [r|s']; [eauto|].
  apply IH; [done|]. intros x' s0 Hin. apply Hbody. by right.
Qed.

Lemma set_remove_add (w : string) (used : gset string) :
  w ∉ used → set_remove w ({[w]} ∪ used) = Ok used.
Proof.
  intros Hw. unfold set_remove.
  rewrite decide_True by (apply elem_of_union_l; by apply elem_of_singleton).
  f_equal. apply set_eq. intros x.
  rewrite elem_of_difference, elem_of_union, elem_of_singleton.
  split; [tauto|]. intros Hx. split; [tauto|]. congruence.
Qed.

(** ** build_waffle *)

Arguments candidates_with_constraints : simpl never.
Arguments assemble : simpl never.

Section SearchFacts.
Context {G : Type} `{RandomLaws G}.
Variables (words : list string) (idx : pos_index).

Lemma try_w4_spec (w0 w1 w2 w3 w4 : string) (used : gset string) (g : G) :
  w4 ∉ used →
  match try_w4 words idx w0 w1 w2 w3 w4 (used, g) with
  | Ok (Continue st) => st.1 = used
  | Ok (Returned r) =>
    ∃ w5, step5 words idx w0 w2 w4 ({[w4]} ∪ used) w5 ∧
          assemble w0 w1 w2 w3 w4 w5 = Ok r.1
  | Raise _ => True
  end.
Proof.
  intros Hw4. unfold try_w4.
  destruct (str_index w0 4) as [a|] eqn:Ha; simpl; [|done].
  destruct (str_index w2 4) as [b|] eqn:Hb; simpl; [|done].
  destruct (str_index w4 4) as [c|] eqn:Hc; simpl; [|done].
  apply str_index_Ok in Ha, Hb, Hc.
  destruct (candidates_with_constraints words idx _ _ g)
    as [[c5 g5]|] eqn:Hc5; simpl; [|done].
  destruct c5 as [|w5 c5].
  - rewrite set_remove_add by done. done.
  - destruct (assemble w0 w1 w2 w3 w4 w5) as [wf|] eqn:Has; simpl; [|done].
    exists w5. split; [|done]. exists a, b, c. repeat split; try done.
    exists g, g5, (w5 :: c5). split; [done|left].
Qed.

Lemma is_candidate_unused (cs : constraints) (used : gset string)
    (w : string) :
  is_candidate words idx cs used w → satisfies w cs ∧ w ∉ used.
Proof. intros (g & g' & res & Hc & Hw). by eapply candidates_sound. Qed.

Lemma try_w3_spec (w0 w1 w2 w3 : string) (used : gset string) (g : G) :
  w3 ∉ used →
  match try_w3 words idx w0 w1 w2 w3 (used, g) with
  | Ok (Continue st) => st.1 = used
  | Ok (Returned r) =>
    ∃ w4 w5,
      step4 words idx w1 w3 ({[w3]} ∪ used) w4 ∧
      step5 words idx w0 w2 w4 ({[w4]} ∪ ({[w3]} ∪ used)) w5 ∧
      assemble w0 w1 w2 w3 w4 w5 = Ok r.1
  | Raise _ => True
  end.
Proof.
  intros Hw3. unfold try_w3.
  destruct (str_index w1 4) as [a|] eqn:Ha; simpl; [|done].
  destruct (str_index w3 4) as [b|] eqn:Hb; simpl; [|done].
  apply str_index_Ok in Ha, Hb.
  destruct (candidates_with_constraints words idx _ _ g)
    as [[c4 g4]|] eqn:Hc4; simpl; [|done].
  destruct c4 as [|x c4]; [by rewrite set_remove_add|].
  pose proof (for_each_spec
    (λ st : search_state, st.1 = {[w3]} ∪ used)
    (λ r : waffle * G, ∃ w4 w5,
      step4 words idx w1 w3 ({[w3]} ∪ used) w4 ∧
      step5 words idx w0 w2 w4 ({[w4]} ∪ ({[w3]} ∪ used)) w5 ∧
      assemble w0 w1 w2 w3 w4 w5 = Ok r.1)
    (try_w4 words idx w0 w1 w2 w3) (x :: c4) ({[w3]} ∪ used, g4)
    eq_refl) as Hloop.
  lapply Hloop; clear Hloop.
  - intros Hloop.
    destruct (for_each _ (x :: c4) _) as [[r|[u g']]|e]; simpl; [done| |done].
    simpl in Hloop. subst u. by rewrite set_remove_add.
  - intros w4 [u g0] Hin Hu. simpl in Hu. subst u.
    assert (step4 words idx w1 w3 ({[w3]} ∪ used) w4) as Hs4.
    { exists a, b. repeat split; try done. by exists g, g4, (x :: c4). }
    pose proof Hs4 as (a' & b' & _ & _ & Hcand).
    apply is_candidate_unused in Hcand as [_ Hw4].
    pose proof (try_w4_spec w0 w1 w2 w3 w4 _ g0 Hw4) as Hbody.
    destruct (try_w4 _ _ _ _ _ _ _ _) as [[r'|st']|e']; [|done..].
    destruct Hbody as (w5 & Hs5 & Has). exists w4, w5. auto.
Qed.

Lemma try_w2_spec (w0 w1 w2 : string) (used : gset string) (g : G) :
  w2 ∉ used →
  match try_w2 words idx w0 w1 w2 (used, g) with
  | Ok (Continue st) => st.1 = used
  | Ok (Returned r) =>
    ∃ w3 w4 w5,
      step3 words idx w0 w2 ({[w2]} ∪ used) w3 ∧
      step4 words idx w1 w3 ({[w3]} ∪ ({[w2]} ∪ used)) w4 ∧
      step5 words idx w0 w2 w4
            ({[w4]} ∪ ({[w3]} ∪ ({[w2]} ∪ used))) w5 ∧
      assemble w0 w1 w2 w3 w4 w5 = Ok r.1
  | Raise _ => True
  end.
Proof.
  intros Hw2. unfold try_w2.
  destruct (str_index w0 2) as [a|] eqn:Ha; simpl; [|done].
  destruct (str_index w2 2) as [b|] eqn:Hb; simpl; [|done].
  apply str_index_Ok in Ha, Hb.
  destruct (candidates_with_constraints words idx _ _ g)
    as [[c3 g3]|] eqn:Hc3; simpl; [|done].
  destruct c3 as [|x c3]; [by rewrite set_remove_add|].
  pose proof (for_each_spec
    (λ st : search_state, st.1 = {[w2]} ∪ used)
    (λ r : waffle * G, ∃ w3 w4 w5,
      step3 words idx w0 w2 ({[w2]} ∪ used) w3 ∧
      step4 words idx w1 w3 ({[w3]} ∪ ({[w2]} ∪ used)) w4 ∧
      step5 words idx w0 w2 w4
            ({[w4]} ∪ ({[w3]} ∪ ({[w2]} ∪ used))) w5 ∧
      assemble w0 w1 w2 w3 w4 w5 = Ok r.1)
    (try_w3 words idx w0 w1 w2) (x :: c3) ({[w2]} ∪ used, g3)
    eq_refl) as Hloop.
  lapply Hloop; clear Hloop.
  - intros Hloop.
    destruct (for_each _ (x :: c3) _) as [[r|[u g']]|e]; simpl; [done| |done].
    simpl in Hloop. subst u. by rewrite set_remove_add.
  - intros w3 [u g0] Hin Hu. simpl in Hu. subst u.
    assert (step3 words idx w0 w2 ({[w2]} ∪ used) w3) as Hs3.
    { exists a, b. repeat split; try done. by exists g, g3, (x :: c3). }
    pose proof Hs3 as (a' & b' & _ & _ & Hcand).
    apply is_candidate_unused in Hcand as [_ Hw3].
    pose proof (try_w3_spec w0 w1 w2 w3 _ g0 Hw3) as Hbody.
    destruct (try_w3 _ _ _ _ _ _ _) as [[r'|st']|e']; [|done..].
    destruct Hbody as (w4 & w5 & Hs4 & Hs5 & Has). exists w3, w4, w5. auto.
Qed.

Lemma try_w1_spec (w0 w1 : string) (used : gset string) (g : G) :
  w1 ∉ used →
  match try_w1 words idx w0 w1 (used, g) with
  | Ok (Continue st) => st.1 = used
  | Ok (Returned r) =>
    ∃ w2 w3 w4 w5,
      step2 words idx w1 ({[w1]} ∪ used) w2 ∧
      step3 words idx w0 w2 ({[w2]} ∪ ({[w1]} ∪ used)) w3 ∧
      step4 words idx w1 w3 ({[w3]} ∪ ({[w2]} ∪ ({[w1]} ∪ used))) w4 ∧
      step5 words idx w0 w2 w4
            ({[w4]} ∪ ({[w3]} ∪ ({[w2]} ∪ ({[w1]} ∪ used)))) w5 ∧
      assemble w0 w1 w2 w3 w4 w5 = Ok r.1
  | Raise _ => True
  end.
Proof.
  intros Hw1. unfold try_w1.
  destruct (str_index w1 2) as [a|] eqn:Ha; simpl; [|done].
  apply str_index_Ok in Ha.
  destruct (candidates_with_constraints words idx _ _ g)
    as [[c2 g2]|] eqn:Hc2; simpl; [|done].
  destruct c2 as [|x c2]; [by rewrite set_remove_add|].
  pose proof (for_each_spec
    (λ st : search_state, st.1 = {[w1]} ∪ used)
    (λ r : waffle * G, ∃ w2 w3 w4 w5,
      step2 words idx w1 ({[w1]} ∪ used) w2 ∧
      step3 words idx w0 w2 ({[w2]} ∪ ({[w1]} ∪ used)) w3 ∧
      step4 words idx w1 w3 ({[w3]} ∪ ({[w2]} ∪ ({[w1]} ∪ used))) w4 ∧
      step5 words idx w0 w2 w4
            ({[w4]} ∪ ({[w3]} ∪ ({[w2]} ∪ ({[w1]} ∪ used)))) w5 ∧
      assemble w0 w1 w2 w3 w4 w5 = Ok r.1)
    (try_w2 words idx w0 w1) (x :: c2) ({[w1]} ∪ used, g2)
    eq_refl) as Hloop.
  lapply Hloop; clear Hloop.
  - intros Hloop.
    destruct (for_each _ (x :: c2) _) as [[r|[u g']]|e]; simpl; [done| |done].
    simpl in Hloop. subst u. by rewrite set_remove_add.
  - intros w2 [u g0] Hin Hu. simpl in Hu. subst u.
    assert (step2 words idx w1 ({[w1]} ∪ used) w2) as Hs2.
    { exists a. split; [done|]. by exists g, g2, (x :: c2). }
    pose proof Hs2 as (a' & _ & Hcand).
    apply is_candidate_unused in Hcand as [_ Hw2].
    pose proof (try_w2_spec w0 w1 w2 _ g0 Hw2) as Hbody.
    destruct (try_w2 _ _ _ _ _ _) as [[r'|st']|e']; [|done..].
    destruct Hbody as (w3 & w4 & w5 & Hs3 & Hs4 & Hs5 & Has).
    exists w2, w3, w4, w5. auto.
Qed.

(** A successful build has followed a search path, and its result is the
    grid assembled from the six words of the path. *)
Lemma build_waffle_path (m : nat) (g g' : G) (wf : waffle) :
  build_waffle words idx m g = Ok (Some wf, g') →
  ∃ w0 w1 w2 w3 w4 w5,
    search_path words idx w0 w1 w2 w3 w4 w5 ∧
    assemble w0 w1 w2 w3 w4 w5 = Ok wf.
Proof.
  unfold build_waffle.
  destruct (choice words g) as [[w0 g0]|] eqn:Hch; simpl; [|done].
  assert (w0 ∈ words) as Hw0.
  { destruct words as [|w ws] eqn:Hws; [by rewrite choice_nil in Hch|].
    destruct (choice_elem (w :: ws) g) as (x & gx & Hx & Hin); [done|].
    congruence. }
  destruct m as [|m]; [done|].
  destruct (str_index w0 0) as [a|] eqn:Ha; simpl; [|done].
  apply str_index_Ok in Ha.
  destruct (candidates_with_constraints words idx _ _ g0)
    as [[c1 g1]|] eqn:Hc1; simpl; [|done].
  destruct c1 as [|x c1]; [done|].
  pose proof (for_each_spec
    (λ st : search_state, st.1 = {[w0]} ∪ ∅)
    (λ r : waffle * G, ∃ w1 w2 w3 w4 w5,
      search_path words idx w0 w1 w2 w3 w4 w5 ∧
      assemble w0 w1 w2 w3 w4 w5 = Ok r.1)
    (try_w1 words idx w0) (x :: c1) ({[w0]} ∪ ∅, g1)
    eq_refl) as Hloop.
  lapply Hloop; clear Hloop.
  - intros Hloop.
    destruct (for_each _ (x :: c1) _) as [[[wf' g'']|[u g'']]|e]; simpl;
      [|done..].
    intros [= -> ->]. destruct Hloop as (w1 & w2 & w3 & w4 & w5 & Hp & Has).
    by exists w0, w1, w2, w3, w4, w5.
  - intros w1 [u gx] Hin Hu. simpl in Hu. subst u.
    assert (step1 words idx w0 ({[w0]} ∪ ∅) w1) as Hs1.
    { exists a. split; [done|]. by exists g0, g1, (x :: c1). }
    pose proof Hs1 as (a' & _ & Hcand).
    apply is_candidate_unused in Hcand as [_ Hw1].
    pose proof (try_w1_spec w0 w1 _ gx Hw1) as Hbody.
    destruct (try_w1 _ _ _ _ _) as [[r'|st']|e']; [|done..].
    destruct Hbody as (w2 & w3 & w4 & w5 & Hs2 & Hs3 & Hs4 & Hs5 & Has).
    exists w1, w2, w3, w4, w5. split; [|done].
    unfold search_path. auto 10.
Qed.

End SearchFacts.

Lemma assemble_words (w0 w1 w2 w3 w4 w5 : string) (gr : grid)
    (across : across_words) (down : down_words) :
  assemble w0 w1 w2 w3 w4 w5 = Ok (gr, across, down) →
  across = (w0, w2, w4) ∧ down = (w1, w3, w5).
Proof.
  unfold assemble.
  destruct (for_in _ (seq 0 5) (replicate 5 (replicate 5 None)))
    as [gr1|]; [|done].
  unfold mbind at 1. unfold result_bind at 1.
  destruct (for_in _ (seq 0 5) gr1) as [gr2|]; [|done].
  by intros [= _ <- <-].
Qed.

Lemma satisfies_cons (w : string) (pos : nat) (ch : ascii)
    (cs : constraints) :
  satisfies w ((pos, ch) :: cs) ↔ String.get pos w = Some ch ∧ satisfies w cs.
Proof. unfold satisfies. by rewrite Forall_cons. Qed.

Section Solved.
Context {G : Type} `{RandomLaws G}.

(** The words of a search path cross correctly and are all different. *)
Lemma search_path_solved (words : list string) (idx : pos_index)
    (w0 w1 w2 w3 w4 w5 : string) :
  search_path words idx w0 w1 w2 w3 w4 w5 →
  intersections w0 w1 w2 w3 w4 w5 ∧ NoDup [w0; w1; w2; w3; w4; w5].
Proof.
  intros (_ & (a1 & Ha1 & Hc1) & (a2 & Ha2 & Hc2) &
          (a3 & b3 & Ha3 & Hb3 & Hc3) & (a4 & b4 & Ha4 & Hb4 & Hc4) &
          (a5 & b5 & c5 & Ha5 & Hb5 & Hcc5 & Hc5)).
  apply is_candidate_unused in Hc1 as [Hs1 Hu1].
  apply is_candidate_unused in Hc2 as [Hs2 Hu2].
  apply is_candidate_unused in Hc3 as [Hs3 Hu3].
  apply is_candidate_unused in Hc4 as [Hs4 Hu4].
  apply is_candidate_unused in Hc5 as [Hs5 Hu5].
  repeat match goal with
         | Hs : satisfies _ (_ :: _) |- _ =>
           apply satisfies_cons in Hs as [? ?]
         end.
  split.
  - unfold intersections, agree. repeat split; eexists; split; eassumption.
  - rewrite !NoDup_cons. clear -Hu1 Hu2 Hu3 Hu4 Hu5.
    repeat split; [..|apply NoDup_nil_2]; set_unfold; intuition congruence.
Qed.

(** C1. The six words of a successful build satisfy the nine
    intersection constraints and are pairwise distinct. *)
Theorem build_waffle_solved (words : list string) (idx : pos_index)
    (m : nat) (g g' : G) (gr : grid) (w0 w1 w2 w3 w4 w5 : string) :
  build_waffle words idx m g
    = Ok (Some (gr, (w0, w2, w4), (w1, w3, w5)), g') →
  intersections w0 w1 w2 w3 w4 w5 ∧ NoDup [w0; w1; w2; w3; w4; w5].
Proof.
  intros Hb. apply build_waffle_path in Hb
    as (v0 & v1 & v2 & v3 & v4 & v5 & Hp & Has).
  apply assemble_words in Has as [[= <- <- <-] [= <- <- <-]].
  by eapply search_path_solved.
Qed.

End Solved.

(** ** The assembled grid *)

Ltac word_shape w :=
  destruct w as [|? [|? [|? [|? [|? ?]]]]]; simplify_eq/=.

Ltac below_five i :=
  destruct i as [|[|[|[|[|?]]]]]; [..|lia].

(** Crossing words assemble into a grid of the expected contents. *)
Lemma assemble_raw_grid (w0 w1 w2 w3 w4 w5 : string) :
  intersections w0 w1 w2 w3 w4 w5 →
  ∃ gr, assemble w0 w1 w2 w3 w4 w5 = Ok (gr, (w0, w2, w4), (w1, w3, w5)) ∧
        raw_grid gr w0 w1 w2 w3 w4 w5 ∧
        ∃ masked, grid_to_masked gr = Ok masked ∧ holes_marked masked.
Proof.
  unfold intersections, agree.
  intros ((x1 & H1 & H1') & (x2 & H2 & H2') & (x3 & H3 & H3') &
          (x4 & H4 & H4') & (x5 & H5 & H5') & (x6 & H6 & H6') &
          (x7 & H7 & H7') & (x8 & H8 & H8') & (x9 & H9 & H9')).
  word_shape w0. word_shape w1. word_shape w2.
  word_shape w3. word_shape w4. word_shape w5.
  eexists. split; [reflexivity|]. split.
  - unfold raw_grid, letter_at. split; [done|]. split.
    { repeat constructor. }
    split; [|repeat constructor].
    intros i Hi. below_five i; repeat split; eexists; split; reflexivity.
  - eexists. split; [reflexivity|]. repeat constructor.
Qed.

Lemma is_word_shape (w : string) :
  is_word w →
  ∃ a b c d e,
    w = String a (String b (String c (String d (String e "")))) ∧
    is_lower a = true ∧ is_lower b = true ∧ is_lower c = true ∧
    is_lower d = true ∧ is_lower e = true.
Proof.
  intros [Hlen Hlow].
  destruct w as [|a [|b [|c [|d [|e [|? ?]]]]]]; simplify_eq/=.
  repeat (apply andb_prop in Hlow as [? Hlow]).
  exists a, b, c, d, e. auto 10.
Qed.

Lemma is_lower_not_hash (ch : ascii) : is_lower ch = true → ch ≠ "#"%char.
Proof. intros Hl ->. done. Qed.

Ltac hole_cell :=
  eexists; split; [reflexivity|]; split;
  [ split; [intros _; compute_done|done]
  | intros Hn; exfalso; apply Hn; compute_done ].

Ltac letter_cell :=
  eexists; split; [reflexivity|]; split;
  [ split;
    [ intros ->; exfalso; eapply is_lower_not_hash; [eassumption|done]
    | intros Hin; exfalso; revert Hin; compute_done ]
  | intros _; assumption ].

(** Masking the grid of six crossing words of the data model. *)
Lemma assemble_masked (w0 w1 w2 w3 w4 w5 : string) (wf : waffle) :
  Forall is_word [w0; w1; w2; w3; w4; w5] →
  intersections w0 w1 w2 w3 w4 w5 →
  assemble w0 w1 w2 w3 w4 w5 = Ok wf →
  ∃ masked, grid_to_masked wf.1.1 = Ok masked ∧ masked_ok masked.
Proof.
  intros Hw Hi Has. rewrite !Forall_cons in Hw.
  destruct Hw as (Hw0 & Hw1 & Hw2 & Hw3 & Hw4 & Hw5 & _).
  apply is_word_shape in Hw0 as (a0 & b0 & c0 & d0 & e0 & -> & ? & ? & ? & ? & ?).
  apply is_word_shape in Hw1 as (a1 & b1 & c1 & d1 & e1 & -> & ? & ? & ? & ? & ?).
  apply is_word_shape in Hw2 as (a2 & b2 & c2 & d2 & e2 & -> & ? & ? & ? & ? & ?).
  apply is_word_shape in Hw3 as (a3 & b3 & c3 & d3 & e3 & -> & ? & ? & ? & ? & ?).
  apply is_word_shape in Hw4 as (a4 & b4 & c4 & d4 & e4 & -> & ? & ? & ? & ? & ?).
  apply is_word_shape in Hw5 as (a5 & b5 & c5 & d5 & e5 & -> & ? & ? & ? & ? & ?).
  clear Hi. vm_compute in Has. injection Has as <-.
  eexists. split; [reflexivity|].
  split; [done|]. split; [repeat constructor|].
  intros r c Hr Hc. below_five r; below_five c;
    first [hole_cell | letter_cell].
Qed.

Section Grids.
Context {G : Type} `{RandomLaws G}.

Lemma is_candidate_in_words (words : list string) (cs : constraints)
    (used : gset string) (w : string) :
  is_candidate words (build_pos_index words) cs used w → w ∈ words.
Proof. intros (g & g' & res & Hc & Hw). by eapply candidates_in_words. Qed.

(** With the index built from the word list, the six words of a search
    path are words of the list. *)
Lemma search_path_in_words (words : list string)
    (w0 w1 w2 w3 w4 w5 : string) :
  search_path words (build_pos_index words) w0 w1 w2 w3 w4 w5 →
  Forall (λ w, w ∈ words) [w0; w1; w2; w3; w4; w5].
Proof.
  intros (Hw0 & (a1 & _ & Hc1) & (a2 & _ & Hc2) &
          (a3 & b3 & _ & _ & Hc3) & (a4 & b4 & _ & _ & Hc4) &
          (a5 & b5 & c5 & _ & _ & _ & Hc5)).
  apply is_candidate_in_words in Hc1, Hc2, Hc3, Hc4, Hc5.
  repeat constructor; done.
Qed.


Lemma built_grid_masked (words : list string) (m : nat) (g g' : G)
    (wf : waffle) :
  Forall is_word words →
  build_waffle words (build_pos_index words) m g = Ok (Some wf, g') →
  ∃ masked, grid_to_masked wf.1.1 = Ok masked ∧ masked_ok masked.
Proof.
  intros Hwords Hb. apply build_waffle_path in Hb
    as (w0 & w1 & w2 & w3 & w4 & w5 & Hp & Has).
  pose proof (search_path_in_words _ _ _ _ _ _ _ Hp) as Hin.
  apply search_path_solved in Hp as [Hi _].
  eapply assemble_masked; [|exact Hi|exact Has].
  eapply Forall_impl; [exact Hin|]. simpl. intros w Hw.
  rewrite Forall_forall in Hwords. by apply Hwords.
Qed.

(** C5. For a word list of the data model and its index, the masked grid
    of a successful build has ['#'] at exactly the four cells (1,1),
    (1,3), (3,1), (3,3) and a letter at each of the other 21 cells. *)
Theorem build_waffle_masked (words : list string) (m : nat) (g g' : G)
    (gr : grid) (across : across_words) (down : down_words) :
  Forall is_word words →
  build_waffle words (build_pos_index words) m g
    = Ok (Some (gr, across, down), g') →
  ∃ masked, grid_to_masked gr = Ok masked ∧ masked_ok masked.
Proof.
  intros Hwords Hb.
  exact (built_grid_masked words m g g' (gr, across, down) Hwords Hb).
Qed.

End Grids.

(** ** masked_to_flat21 *)

Arguments at2 : simpl never.

Lemma drop_cons_lookup {A : Type} (l suf : list A) (a : nat) (x : A) :
  drop a l = x :: suf → l !! a = Some x ∧ drop (S a) l = suf.
Proof.
  intros Hd. split.
  - rewrite <- (Nat.add_0_r a), <- lookup_drop, Hd. done.
  - replace (S a) with (1 + a) by lia.
    rewrite Nat.add_comm, <- drop_drop, Hd. done.
Qed.

Lemma for_in_cons {X S : Type} (body : X → S → result S) (x : X)
    (xs : list X) (s : S) :
  for_in body (x :: xs) s = body x s ≫= for_in body xs.
Proof. done. Qed.

Lemma at2_lookup {A : Type} (m : list (list A)) (r c : nat)
    (row : list A) (v : A) :
  m !! r = Some row → row !! c = Some v → at2 m r c = Ok v.
Proof. intros Hr Hc. unfold at2. by rewrite Hr, Hc. Qed.

(** The inner loop appends the cells of the row that are not ['#']. *)
Lemma flat_row_loop (masked : grid) (r : nat) (row : list (option ascii)) :
  masked !! r = Some row →
  ∀ (suf : list (option ascii)) (a : nat) (chars : list (option ascii)),
    drop a row = suf →
    for_in (λ c chars,
        v ← at2 masked r c;
        if decide (v ≠ Some "#"%char) then Ok (chars ++ [v]) else Ok chars)
      (seq a (length suf)) chars
    = Ok (chars ++ filter (λ v, v ≠ Some "#"%char) suf).
Proof.
  intros Hrow. induction suf as [|v suf IH]; intros a chars Hd; simpl.
  - by rewrite app_nil_r.
  - apply drop_cons_lookup in Hd as [Hv Hd].
    rewrite (at2_lookup _ _ _ _ _ Hrow Hv). simpl.
    rewrite filter_cons. case_decide; simpl.
    + rewrite (IH (S a)) by done. by rewrite <- app_assoc.
    + by rewrite (IH (S a)).
Qed.

Lemma flat_rows_loop (masked : grid) :
  ∀ (suf : grid) (a : nat) (chars : list (option ascii)),
    drop a masked = suf →
    Forall (λ row, length row = 5) suf →
    for_in (λ r chars,
        for_in (λ c chars,
            v ← at2 masked r c;
            if decide (v ≠ Some "#"%char) then Ok (chars ++ [v])
            else Ok chars) (seq 0 5) chars)
      (seq a (length suf)) chars
    = Ok (chars ++ filter (λ v, v ≠ Some "#"%char) (concat suf)).
Proof.
  induction suf as [|row suf IH]; intros a chars Hd Hlen.
  - simpl. by rewrite app_nil_r.
  - apply drop_cons_lookup in Hd as [Hrow Hd].
    apply Forall_cons in Hlen as [Hrl Hlen].
    pose proof (flat_row_loop masked a row Hrow row 0 chars eq_refl) as Hin.
    rewrite Hrl in Hin.
    change (seq a (length (row :: suf))) with (a :: seq (S a) (length suf)).
    rewrite for_in_cons, Hin.
    change (Ok ?x ≫= ?f) with (f x). cbv beta.
    rewrite (IH (S a)) by done.
    by rewrite concat_cons, filter_app, app_assoc.
Qed.

(** On a 5x5 grid, [masked_to_flat21] joins the cells that are not
    ['#'], row by row. *)
Lemma masked_to_flat21_cells (masked : grid) :
  length masked = 5 → Forall (λ row, length row = 5) masked →
  masked_to_flat21 masked
  = join (filter (λ v, v ≠ Some "#"%char) (concat masked)).
Proof.
  intros Hlen Hrows. unfold masked_to_flat21.
  pose proof (flat_rows_loop masked masked 0 [] eq_refl Hrows) as Hl.
  rewrite Hlen in Hl. by rewrite Hl.
Qed.

Lemma join_letters (cs : list ascii) :
  join (Some <$> cs) = Ok (string_of_list_ascii cs).
Proof.
  induction cs as [|c cs IH]; [done|]. rewrite fmap_cons.
  change (join (Some c :: (Some <$> cs)))
    with (s ← join (Some <$> cs); Ok (String c s)).
  by rewrite IH.
Qed.

Lemma expand_row_cells (mask_row : list nat) (row : list (option ascii)) :
  Forall2 cell_ok mask_row row →
  ∃ cs, filter (λ v, v ≠ Some "#"%char) row = Some <$> cs ∧
        length cs = length (filter (λ m, m ≠ 0) mask_row) ∧
        ∀ rest, expand_row mask_row (cs ++ rest) = Some (row, rest).
Proof.
  induction 1 as [|m v mask_row row Hc HF (cs & Hf & Hl & Hexp)].
  - exists []. done.
  - unfold cell_ok in Hc. rewrite !filter_cons. simpl.
    destruct (decide (m ≠ 0)) as [Hm|Hm].
    + destruct Hc as (ch & -> & Hch). exists (ch :: cs).
      rewrite decide_True by congruence.
      split; [by rewrite Hf|]. split; [simpl; by rewrite Hl|].
      intros rest. simpl. by rewrite Hexp.
    + subst v. exists cs. rewrite decide_False by (intros Hn; by apply Hn).
      split; [done|]. split; [done|].
      intros rest. by rewrite Hexp.
Qed.

Lemma expand_rows_cells (mask : list (list nat)) (masked : grid) :
  Forall2 (Forall2 cell_ok) mask masked →
  ∃ cs, filter (λ v, v ≠ Some "#"%char) (concat masked) = Some <$> cs ∧
        length cs = length (filter (λ m, m ≠ 0) (concat mask)) ∧
        ∀ rest, expand_rows mask (cs ++ rest) = Some (masked, rest).
Proof.
  induction 1 as [|mask_row row mask masked Hr HF (cs & Hf & Hl & Hexp)].
  - exists []. done.
  - apply expand_row_cells in Hr as (cr & Hfr & Hlr & Hexpr).
    exists (cr ++ cs). simpl. rewrite !filter_app, Hfr, Hf, fmap_app.
    split; [done|]. split; [rewrite !length_app; lia|].
    intros rest. rewrite <- app_assoc, Hexpr. simpl. by rewrite Hexp.
Qed.

Lemma cell_ok_at (masked : grid) (r c m : nat) (v : option ascii) :
  masked_ok masked → r < 5 → c < 5 →
  at2 VALID_MASK r c = Ok m → at2 masked r c = Ok v → cell_ok m v.
Proof.
  intros (_ & _ & Hcells) Hr Hc Hm Hv.
  destruct (Hcells r c Hr Hc) as (ch & Hch & Hhash & _).
  rewrite Hv in Hch. injection Hch as ->. clear Hv Hcells.
  below_five r; below_five c; vm_compute in Hm; injection Hm as <-;
    unfold cell_ok; simpl.
  all: first
    [ exists ch; split; [done|]; intros Heq; apply Hhash in Heq;
      revert Heq; compute_done
    | f_equal; apply Hhash; compute_done ].
Qed.

Lemma masked_ok_cells (masked : grid) :
  masked_ok masked → Forall2 (Forall2 cell_ok) VALID_MASK masked.
Proof.
  intros Hok. pose proof Hok as (Hlen & Hrows & _).
  apply Forall2_same_length_lookup. split; [by rewrite Hlen|].
  intros r mask_row row Hmr Hrow.
  assert (r < 5) as Hr.
  { apply lookup_lt_Some in Hrow. lia. }
  assert (length mask_row = 5) as Hml.
  { below_five r; by simplify_eq/=. }
  assert (length row = 5) as Hrl.
  { rewrite Forall_forall in Hrows. apply Hrows.
    by eapply list_elem_of_lookup_2. }
  apply Forall2_same_length_lookup. split; [by rewrite Hml, Hrl|].
  intros c m v Hm Hv.
  assert (c < 5) as Hc.
  { apply lookup_lt_Some in Hv. lia. }
  eapply (cell_ok_at masked r c); try done.
  - by eapply at2_lookup.
  - by eapply at2_lookup.
Qed.

(** The round trip, for any grid whose cells agree with the hole mask. *)
Lemma flat21_roundtrip (masked : grid) :
  masked_ok masked →
  ∃ flat21, masked_to_flat21 masked = Ok flat21 ∧
            String.length flat21 = 21 ∧
            flat21_to_masked flat21 = Some masked.
Proof.
  intros Hok. pose proof Hok as (Hlen & Hrows & _).
  apply masked_ok_cells, expand_rows_cells in Hok as (cs & Hf & Hl & Hexp).
  exists (string_of_list_ascii cs).
  rewrite masked_to_flat21_cells, Hf, join_letters by done.
  split; [done|]. split.
  - by rewrite <- length_list_ascii, list_ascii_of_string_of_list_ascii, Hl.
  - unfold flat21_to_masked.
    rewrite list_ascii_of_string_of_list_ascii.
    rewrite <- (app_nil_r cs), Hexp. done.
Qed.

(** C6. The 21-character string of a masked solved grid is reversible:
    re-expanding it with the hole mask, in row-major hole-skipping order,
    gives back the same masked grid. *)
Theorem masked_to_flat21_reversible (masked : grid) :
  masked_ok masked →
  ∃ flat21, masked_to_flat21 masked = Ok flat21 ∧
            String.length flat21 = 21 ∧
            flat21_to_masked flat21 = Some masked.
Proof. apply flat21_roundtrip. Qed.

(** Hence two masked solved grids with the same string are the same. *)
Corollary masked_to_flat21_inj (m1 m2 : grid) :
  masked_ok m1 → masked_ok m2 →
  masked_to_flat21 m1 = masked_to_flat21 m2 → m1 = m2.
Proof.
  intros H1 H2 Heq.
  apply flat21_roundtrip in H1 as (s1 & Hs1 & _ & He1).
  apply flat21_roundtrip in H2 as (s2 & Hs2 & _ & He2).
  rewrite Hs1, Hs2 in Heq. injection Heq as ->. congruence.
Qed.

(** ** The empty word list *)

Lemma build_pos_index_nil (key : nat * ascii) :
  posting (build_pos_index []) key = [].
Proof. unfold posting, build_pos_index. simpl. by rewrite lookup_empty. Qed.

Section EmptyList.
Context {G : Type} `{RandomLaws G}.

(** C7, at the empty word list. The index built from it answers every
    query with the empty list, and [build_waffle] raises [IndexError]:
    [random.choice] is called on the empty list before any candidate is
    looked up. *)
Theorem build_waffle_nil_raises (m : nat) (g : G) :
  (∀ key, posting (build_pos_index []) key = []) ∧
  build_waffle [] (build_pos_index []) m g = Raise IndexError.
Proof.
  split; [apply build_pos_index_nil|].
  unfold build_waffle. by rewrite choice_nil.
Qed.

(** C9, at a word file without any valid word. The first call of
    [build_waffle] raises, and so does [generate_many]. *)
Theorem generate_many_no_words_raises (fh : list string)
    (n max_tries : nat) (g : G) :
  load_words fh = [] → 0 < n → 0 < max_tries →
  generate_many fh n max_tries g = Raise IndexError.
Proof.
  intros Hw Hn Hm. unfold generate_many. rewrite Hw.
  destruct max_tries as [|budget]; [lia|]. simpl.
  rewrite decide_True by done.
  unfold build_waffle. by rewrite choice_nil.
Qed.

End EmptyList.

(** ** load_words *)

Lemma lower_alpha_is_lower (c : ascii) :
  is_alpha (lower_char c) = true → is_lower (lower_char c) = true.
Proof. destruct c as [[] [] [] [] [] [] [] []]; by vm_compute. Qed.

Lemma isalpha_lower_is_lower (s : string) :
  isalpha (lower s) = true →
  forallb is_lower (list_ascii_of_string (lower s)) = true.
Proof.
  unfold isalpha, lower. rewrite list_ascii_of_string_of_list_ascii.
  intros Ha.
  assert (forallb is_alpha (lower_char <$> list_ascii_of_string s) = true)
    as Hall.
  { by destruct (lower_char <$> list_ascii_of_string s). }
  clear Ha. induction (list_ascii_of_string s) as [|c cs IH]; [done|].
  rewrite fmap_cons in *. simpl in *.
  apply andb_prop in Hall as [Hc Hall].
  by rewrite (lower_alpha_is_lower c Hc), IH.
Qed.

(** The list before sorting: the stripped, lowercased, non-blank lines
    that are five alphabetic characters long. *)
Lemma load_words_perm (fh : list string) :
  load_words fh ≡ₚ
  filter (λ w, String.length w = 5 ∧ isalpha w = true)
         ((λ w, lower (strip w)) <$> filter (λ w, strip w ≠ "") fh).
Proof. unfold load_words. apply merge_sort_Permutation. Qed.

Lemma load_words_words (fh : list string) : Forall is_word (load_words fh).
Proof.
  rewrite Forall_forall. intros w Hw.
  rewrite load_words_perm in Hw.
  apply list_elem_of_filter in Hw as [[Hlen Halpha] Hraw].
  apply list_elem_of_fmap in Hraw as (line & -> & _).
  split; [done|]. by apply isalpha_lower_is_lower.
Qed.


(** ** shuffler *)

Arguments str_index : simpl never.

Lemma select_from_ext (keep keep' : nat → bool) (a : nat) (l : list ascii) :
  (∀ i, keep i = keep' i) → select_from keep a l = select_from keep' a l.
Proof.
  intros Hk. revert a. induction l as [|c l IH]; intros a; simpl; [done|].
  by rewrite Hk, IH.
Qed.

Lemma merge_from_length (keep : nat → bool) (a : nat) (l ts : list ascii) :
  length ts = length (select_from keep a l) →
  length (merge_from keep a l ts) = length l.
Proof.
  revert a ts. induction l as [|c l IH]; intros a ts; simpl; [done|].
  destruct (keep a); simpl.
  - destruct ts as [|t ts]; simpl; [done|]. intros [= Hl]. by rewrite IH.
  - intros Hl. by rewrite IH.
Qed.

(** Positions that are not selected keep their letter. *)
Lemma merge_from_fixed (keep : nat → bool) (a : nat) (l ts : list ascii)
    (j : nat) :
  length ts = length (select_from keep a l) →
  keep (a + j) = false →
  merge_from keep a l ts !! j = l !! j.
Proof.
  revert a ts j. induction l as [|c l IH]; intros a ts j; simpl; [done|].
  destruct (keep a) eqn:Hka; simpl.
  - destruct ts as [|t ts]; simpl; [done|]. intros [= Hl] Hk.
    destruct j as [|j]; [by rewrite Nat.add_0_r, Hka in Hk|]. simpl.
    apply IH; [done|]. by rewrite <- Nat.add_succ_comm in Hk.
  - intros Hl Hk. destruct j as [|j]; [done|]. simpl.
    apply IH; [done|]. by rewrite <- Nat.add_succ_comm in Hk.
Qed.

(** The selected positions hold exactly the letters of [ts], in order. *)
Lemma select_merge_from (keep : nat → bool) (a : nat) (l ts : list ascii) :
  length ts = length (select_from keep a l) →
  select_from keep a (merge_from keep a l ts) = ts.
Proof.
  revert a ts. induction l as [|c l IH]; intros a ts; simpl.
  - by destruct ts.
  - destruct (keep a) eqn:Hka; simpl.
    + destruct ts as [|t ts]; simpl; [done|]. intros [= Hl].
      by rewrite Hka, IH.
    + intros Hl. by rewrite Hka, IH.
Qed.

Lemma str_index_lookup (w : string) (i : nat) (c : ascii) :
  list_ascii_of_string w !! i = Some c → str_index w i = Ok c.
Proof. intros Hc. apply str_index_Ok. by rewrite get_lookup. Qed.

Section MixerLoops.
Variables (flat21 : string) (fixed_positions : gset nat).

Let keep : nat → bool := λ i, bool_decide (i ∉ fixed_positions).

Lemma fixed_map_loop (l : list nat) (m0 : gmap nat ascii) :
  (∀ i, i ∈ l → i < String.length flat21) →
  ∃ fm,
    for_in (λ i (fixed_map : gmap nat ascii),
              ch ← str_index flat21 i; Ok (<[i := ch]> fixed_map)) l m0
      = Ok fm ∧
    ∀ i, fm !! i = None ↔ m0 !! i = None ∧ i ∉ l.
Proof.
  revert m0. induction l as [|x l IH]; intros m0 Hlt; simpl.
  - exists m0. split; [done|]. intros i. rewrite elem_of_nil. tauto.
  - destruct (str_index_lt flat21 x) as (c & -> & _); [apply Hlt; left|].
    simpl. destruct (IH (<[x := c]> m0)) as (fm & -> & Hfm).
    { intros i Hi. apply Hlt. by right. }
    exists fm. split; [done|]. intros i.
    rewrite Hfm, lookup_insert_None, not_elem_of_cons.
    intuition (auto; congruence).
Qed.

Lemma build_fixed_map_spec :
  (∀ i, i ∈ fixed_positions → i < String.length flat21) →
  ∃ fm, build_fixed_map flat21 fixed_positions = Ok fm ∧
        ∀ i, fm !! i = None ↔ i ∉ fixed_positions.
Proof.
  intros Hlt. unfold build_fixed_map.
  destruct (fixed_map_loop (elements fixed_positions) ∅) as (fm & -> & Hfm).
  { intros i Hi. apply Hlt. by apply elem_of_elements. }
  exists fm. split; [done|]. intros i.
  rewrite Hfm, lookup_empty, elem_of_elements. tauto.
Qed.

Lemma collect_loop (fm : gmap nat ascii) :
  (∀ i, fm !! i = None ↔ i ∉ fixed_positions) →
  ∀ (suf : list ascii) (a : nat) (acc : list ascii),
    drop a (list_ascii_of_string flat21) = suf →
    for_in (λ i to_shuffle,
              if decide (fm !! i = None)
              then ch ← str_index flat21 i; Ok (to_shuffle ++ [ch])
              else Ok to_shuffle) (seq a (length suf)) acc
    = Ok (acc ++ select_from keep a suf).
Proof.
  intros Hfm.
  match goal with |- context [for_in ?b] => set (body := b) end.
  induction suf as [|c suf IH]; intros a acc Hd.
  - simpl. by rewrite app_nil_r.
  - apply drop_cons_lookup in Hd as [Hc Hd].
    change (seq a (length (c :: suf))) with (a :: seq (S a) (length suf)).
    rewrite for_in_cons. cbn [select_from].
    assert (body a acc = Ok (if keep a then acc ++ [c] else acc)) as ->.
    { unfold body, keep. case_decide as Hk.
      - rewrite (str_index_lookup _ _ _ Hc).
        by rewrite bool_decide_true by by apply Hfm.
      - by rewrite bool_decide_false by (intros Hn; by apply Hk, Hfm). }
    change (Ok ?x ≫= ?f) with (f x). rewrite (IH (S a)) by done.
    destruct (keep a); [by rewrite <- app_assoc|done].
Qed.

Lemma collect_to_shuffle_spec (fm : gmap nat ascii) :
  (∀ i, fm !! i = None ↔ i ∉ fixed_positions) →
  collect_to_shuffle flat21 fm (seq 0 (String.length flat21))
  = Ok (select_from keep 0 (list_ascii_of_string flat21)).
Proof.
  intros Hfm. unfold collect_to_shuffle. rewrite <- length_list_ascii.
  by rewrite (collect_loop fm Hfm _ 0 []).
Qed.

Lemma reassemble_loop (ts : list ascii) :
  ∀ (suf : list ascii) (a : nat) (sh : list ascii) (ind : nat),
    drop a (list_ascii_of_string flat21) = suf →
    ind + length (select_from keep a suf) ≤ length ts →
    for_in (λ i '(shuffled, shuffled_ind),
        if decide (i ∈ fixed_positions)
        then ch ← str_index flat21 i; Ok (shuffled ++ [ch], shuffled_ind)
        else
          match ts !! shuffled_ind with
          | Some ch => Ok (shuffled ++ [ch], shuffled_ind + 1)
          | None => Raise IndexError
          end) (seq a (length suf)) (sh, ind)
    = Ok (sh ++ merge_from keep a suf (drop ind ts),
          ind + length (select_from keep a suf)).
Proof.
  match goal with |- context [for_in ?b] => set (body := b) end.
  induction suf as [|c suf IH]; intros a sh ind Hd Hlen.
  - simpl. by rewrite app_nil_r, Nat.add_0_r.
  - apply drop_cons_lookup in Hd as [Hc Hd].
    change (seq a (length (c :: suf))) with (a :: seq (S a) (length suf)).
    rewrite for_in_cons. cbn [select_from merge_from] in *.
    destruct (keep a) eqn:Hk; unfold keep in Hk.
    + apply bool_decide_eq_true in Hk. simpl in Hlen.
      destruct (lookup_lt_is_Some_2 ts ind) as [t Ht]; [lia|].
      assert (body a (sh, ind) = Ok (sh ++ [t], ind + 1)) as ->.
      { unfold body. by rewrite decide_False, Ht by done. }
      change (Ok ?x ≫= ?f) with (f x).
      rewrite (IH (S a)) by (done || lia).
      rewrite (drop_S _ _ _ Ht), <- app_assoc, Nat.add_1_r. simpl.
      do 2 f_equal. lia.
    + apply bool_decide_eq_false in Hk. apply dec_stable in Hk.
      assert (body a (sh, ind) = Ok (sh ++ [c], ind)) as ->.
      { unfold body. rewrite decide_True by done.
        by rewrite (str_index_lookup _ _ _ Hc). }
      change (Ok ?x ≫= ?f) with (f x).
      rewrite (IH (S a)) by done. by rewrite <- app_assoc.
Qed.

(** With as many letters as there are free positions, [reassemble]
    succeeds and merges them into the string. *)
Lemma reassemble_spec (ts : list ascii) :
  length ts = length (select_from keep 0 (list_ascii_of_string flat21)) →
  reassemble flat21 fixed_positions ts (seq 0 (String.length flat21))
  = Ok (string_of_list_ascii
          (merge_from keep 0 (list_ascii_of_string flat21) ts)).
Proof.
  intros Hlen. unfold reassemble. rewrite <- length_list_ascii.
  rewrite (reassemble_loop ts _ 0 [] 0) by (done || lia). done.
Qed.

End MixerLoops.

Lemma nonfixed_letters_set (fixed : list nat) (F : gset nat) (s : string) :
  (∀ i, i ∈ fixed ↔ i ∈ F) →
  nonfixed_letters fixed s
  = select_from (λ i, bool_decide (i ∉ F)) 0 (list_ascii_of_string s).
Proof.
  intros HF. unfold nonfixed_letters. apply select_from_ext.
  intros i. apply bool_decide_ext. by rewrite HF.
Qed.

(** Any arrangement of the free letters reassembles into a scramble. *)
Lemma reassemble_scramble (target : string) (F : gset nat)
    (ts : list ascii) :
  (∀ i, i ∈ F → i < String.length target) →
  ts ≡ₚ select_from (λ i, bool_decide (i ∉ F)) 0
          (list_ascii_of_string target) →
  ∃ s, reassemble target F ts (seq 0 (String.length target)) = Ok s ∧
       String.length s = String.length target ∧
       (∀ i, i ∈ F → String.get i s = String.get i target) ∧
       select_from (λ i, bool_decide (i ∉ F)) 0 (list_ascii_of_string s)
       = ts.
Proof.
  intros Hlt Hp.
  assert (length ts = length (select_from (λ i, bool_decide (i ∉ F)) 0
            (list_ascii_of_string target))) as Hlen by by rewrite Hp.
  eexists. split; [by apply reassemble_spec|].
  split; [|split].
  - rewrite <- !length_list_ascii, list_ascii_of_string_of_list_ascii.
    by apply merge_from_length.
  - intros i Hi. rewrite !get_lookup, list_ascii_of_string_of_list_ascii.
    apply merge_from_fixed; [done|]. simpl.
    apply bool_decide_eq_false. by intros Hn.
  - rewrite list_ascii_of_string_of_list_ascii.
    by apply select_merge_from.
Qed.

Section Scramble.
Context {G : Type} `{RandomLaws G}.

(** The part of [shuffler] before the first shuffle. *)
Lemma shuffler_prefix (flat21 : string) (k : nat) (g g1 : G)
    (smp : list nat) :
  sample (seq 0 (String.length flat21)) k g = Ok (smp, g1) →
  length smp = k ∧ NoDup smp ∧ (∀ i, i ∈ smp → i < String.length flat21) ∧
  shuffler flat21 k g =
    (let fixed_positions : gset nat := list_to_set smp in
     let indices := seq 0 (String.length flat21) in
     let '(to_shuffle, g) := shuffle (nonfixed_letters smp flat21) g1 in
     shuffled_str ← reassemble flat21 fixed_positions to_shuffle indices;
     if decide (shuffled_str = flat21) then
       let '(to_shuffle, g) := shuffle to_shuffle g in
       shuffled_str ← reassemble flat21 fixed_positions to_shuffle indices;
       Ok (shuffled_str, merge_sort (≤) (elements fixed_positions), g)
     else
       Ok (shuffled_str, merge_sort (≤) (elements fixed_positions), g)).
Proof.
  intros Hs.
  destruct (decide (k ≤ length (seq 0 (String.length flat21)))) as [Hk|Hk];
    [|by rewrite sample_err in Hs by lia].
  destruct (sample_ok (seq 0 (String.length flat21)) k g Hk)
    as (smp' & rest & g' & Hs' & Hlen & Hp).
  rewrite Hs in Hs'. injection Hs' as <- <-.
  assert (NoDup (smp ++ rest)) as Hnd.
  { rewrite Hp. apply NoDup_seq. }
  apply NoDup_app in Hnd as [Hnd _].
  assert (∀ i, i ∈ smp → i < String.length flat21) as Hlt.
  { intros i Hi.
    assert (i ∈ seq 0 (String.length flat21)) as Hin.
    { rewrite <- Hp. apply elem_of_app. by left. }
    apply elem_of_seq in Hin. lia. }
  split; [done|]. split; [done|]. split; [done|].
  unfold shuffler. rewrite Hs. simpl.
  destruct (build_fixed_map_spec flat21 (list_to_set smp)) as (fm & -> & Hfm).
  { intros i Hi. apply Hlt. by apply elem_of_list_to_set in Hi. }
  simpl. rewrite (collect_to_shuffle_spec _ _ _ Hfm). simpl.
  rewrite (nonfixed_letters_set smp (list_to_set smp)); [done|].
  intros i. by rewrite elem_of_list_to_set.
Qed.

Lemma sorted_fixed (smp : list nat) :
  NoDup smp →
  merge_sort (≤) (elements (list_to_set smp : gset nat)) ≡ₚ smp ∧
  StronglySorted (≤) (merge_sort (≤) (elements (list_to_set smp : gset nat))).
Proof.
  intros Hnd. split.
  - rewrite merge_sort_Permutation. by apply elements_list_to_set.
  - apply StronglySorted_merge_sort; apply _.
Qed.

Lemma scramble_of_perm (target : string) (k : nat) (smp : list nat)
    (ts : list ascii) :
  length smp = k → NoDup smp →
  (∀ i, i ∈ smp → i < String.length target) →
  ts ≡ₚ nonfixed_letters smp target →
  ∃ s,
    reassemble target (list_to_set smp) ts (seq 0 (String.length target))
      = Ok s ∧
    scramble_ok target k s
      (merge_sort (≤) (elements (list_to_set smp : gset nat))).
Proof.
  intros Hlen Hnd Hlt Hp.
  destruct (sorted_fixed smp Hnd) as [Hfp Hfs].
  assert (∀ i, i ∈ smp ↔ i ∈ (list_to_set smp : gset nat)) as Hset.
  { intros i. by rewrite elem_of_list_to_set. }
  assert (∀ i, i ∈ merge_sort (≤) (elements (list_to_set smp : gset nat))
               ↔ i ∈ (list_to_set smp : gset nat)) as Hfix.
  { intros i. by rewrite Hfp, Hset. }
  rewrite (nonfixed_letters_set smp _ target Hset) in Hp.
  destruct (reassemble_scramble target (list_to_set smp) ts)
    as (s & Hre & Hsl & Hsf & Hsel); [|done|].
  { intros i Hi. apply Hlt. by apply Hset. }
  exists s. split; [done|]. unfold scramble_ok.
  split; [done|]. split.
  { intros i Hi. apply Hsf. by apply Hfix. }
  split.
  { by rewrite !(nonfixed_letters_set _ _ _ Hfix), Hsel. }
  split; [by rewrite Hfp|]. split; [by rewrite Hfp|].
  split; [|done]. intros i Hi. apply Hlt. by apply Hset, Hfix.
Qed.

(** C3. For a target at least [fixed_count] long, [shuffler] returns a
    string that keeps the target's letter at every fixed index and whose
    letters at the other positions are a rearrangement of the target's,
    with [fixed_count] distinct fixed indices, all inside the string, in
    ascending order. *)
Theorem shuffler_scramble (target : string) (fixed_count : nat) (g : G) :
  fixed_count ≤ String.length target →
  ∃ shuffled fixed_indices g',
    shuffler target fixed_count g = Ok (shuffled, fixed_indices, g') ∧
    scramble_ok target fixed_count shuffled fixed_indices.
Proof.
  intros Hk.
  destruct (sample_ok (seq 0 (String.length target)) fixed_count g)
    as (smp & rest & g1 & Hs & _ & _); [by rewrite length_seq|].
  destruct (shuffler_prefix target fixed_count g g1 smp Hs)
    as (Hlen & Hnd & Hlt & ->). simpl.
  destruct (shuffle (nonfixed_letters smp target) g1) as [ts1 g2] eqn:Hsh1.
  pose proof (shuffle_perm (nonfixed_letters smp target) g1) as Hp1.
  rewrite Hsh1 in Hp1. simpl in Hp1.
  destruct (scramble_of_perm target fixed_count smp ts1)
    as (s1 & -> & Hok1); [done..|]. simpl.
  case_decide as Heq; [|by eauto].
  destruct (shuffle ts1 g2) as [ts2 g3] eqn:Hsh2.
  pose proof (shuffle_perm ts1 g2) as Hp2.
  rewrite Hsh2 in Hp2. simpl in Hp2.
  destruct (scramble_of_perm target fixed_count smp ts2)
    as (s2 & -> & Hok2); [done..|by rewrite Hp2|]. simpl. by eauto.
Qed.

(** C4. When the first reassembled string equals the target, the free
    letters are shuffled once more, the string is reassembled with the
    same fixed positions and letters, and that second string is what
    [shuffler] returns, equal to the target or not; the generator has
    then served exactly two shuffles. *)
Theorem shuffler_single_redo (target : string) (fixed_count : nat)
    (g g1 g2 g3 : G) (smp : list nat) (ts1 ts2 : list ascii) :
  sample (seq 0 (String.length target)) fixed_count g = Ok (smp, g1) →
  shuffle (nonfixed_letters smp target) g1 = (ts1, g2) →
  reassemble target (list_to_set smp) ts1 (seq 0 (String.length target))
    = Ok target →
  shuffle ts1 g2 = (ts2, g3) →
  ∃ second,
    reassemble target (list_to_set smp) ts2 (seq 0 (String.length target))
      = Ok second ∧
    shuffler target fixed_count g
      = Ok (second, merge_sort (≤) (elements (list_to_set smp : gset nat)),
            g3) ∧
    (∀ i, i ∈ smp → String.get i second = String.get i target).
Proof.
  intros Hs Hsh1 Hre1 Hsh2.
  destruct (shuffler_prefix target fixed_count g g1 smp Hs)
    as (Hlen & Hnd & Hlt & ->). simpl.
  rewrite Hsh1, Hre1. simpl. rewrite decide_True by done. rewrite Hsh2.
  pose proof (shuffle_perm (nonfixed_letters smp target) g1) as Hp1.
  rewrite Hsh1 in Hp1. simpl in Hp1.
  pose proof (shuffle_perm ts1 g2) as Hp2.
  rewrite Hsh2 in Hp2. simpl in Hp2.
  destruct (scramble_of_perm target fixed_count smp ts2)
    as (s2 & Hre2 & Hok2); [done..|by rewrite Hp2|].
  exists s2. rewrite Hre2. split; [done|]. split; [done|].
  intros i Hi. destruct Hok2 as (_ & Hfix & _). apply Hfix.
  destruct (sorted_fixed smp Hnd) as [Hfp _].
  rewrite Hfp. done.
Qed.

End Scramble.

(** ** generate_many on a non-empty word list *)

Lemma assemble_total (w0 w1 w2 w3 w4 w5 : string) :
  Forall (λ w, String.length w = 5) [w0; w1; w2; w3; w4; w5] →
  ∃ wf, assemble w0 w1 w2 w3 w4 w5 = Ok wf.
Proof.
  rewrite !Forall_cons. intros (H0 & H1 & H2 & H3 & H4 & H5 & _).
  destruct w0 as [|? [|? [|? [|? [|? [|? ?]]]]]]; simplify_eq/=.
  destruct w1 as [|? [|? [|? [|? [|? [|? ?]]]]]]; simplify_eq/=.
  destruct w2 as [|? [|? [|? [|? [|? [|? ?]]]]]]; simplify_eq/=.
  destruct w3 as [|? [|? [|? [|? [|? [|? ?]]]]]]; simplify_eq/=.
  destruct w4 as [|? [|? [|? [|? [|? [|? ?]]]]]]; simplify_eq/=.
  destruct w5 as [|? [|? [|? [|? [|? [|? ?]]]]]]; simplify_eq/=.
  eexists. reflexivity.
Qed.

Lemma set_remove_present (w : string) (used : gset string) :
  ∃ used', set_remove w ({[w]} ∪ used) = Ok used'.
Proof.
  unfold set_remove.
  rewrite decide_True by (apply elem_of_union_l; by apply elem_of_singleton).
  eauto.
Qed.

Section Totality.
Context {G : Type} `{RandomLaws G}.
Variable words : list string.
Hypothesis words_five : Forall (λ w, String.length w = 5) words.

Let idx : pos_index := build_pos_index words.

Lemma word_five (w : string) : w ∈ words → String.length w = 5.
Proof. intros Hw. rewrite Forall_forall in words_five. by apply words_five. Qed.

Lemma word_letter (w : string) (i : nat) :
  w ∈ words → i < 5 → ∃ c, str_index w i = Ok c.
Proof.
  intros Hw Hi. destruct (str_index_lt w i) as (c & Hc & _); [|by eauto].
  by rewrite (word_five w Hw).
Qed.

(** Candidate lookups on positions 0..4 never raise. *)
Lemma candidates_five (cs : constraints) (used : gset string) (g : G) :
  Forall (λ pc, pc.1 < 5) cs →
  ∃ res g', candidates_with_constraints words idx cs used g = Ok (res, g') ∧
            ∀ w, w ∈ res → w ∈ words ∧ w ∉ used.
Proof.
  intros Hcs. destruct (candidates_total words cs used g) as (res & g' & Hc).
  { intros w pos ch Hw Hpos. rewrite (word_five w Hw).
    rewrite Forall_forall in Hcs. by apply (Hcs (pos, ch)). }
  exists res, g'. split; [done|]. intros w Hw. split.
  - by eapply candidates_in_words.
  - by eapply candidates_sound.
Qed.

Ltac letter w i c :=
  let Hc := fresh "Hc" in
  destruct (word_letter w i) as [c Hc]; [done|lia|]; rewrite Hc; simpl.

Ltac lookup_candidates cs res g' Hres :=
  match goal with
  | |- context [candidates_with_constraints words idx cs ?u ?g] =>
    destruct (candidates_five cs u g) as (res & g' & -> & Hres);
    [repeat constructor; simpl; lia|]; simpl
  end.

Lemma try_w4_total (w0 w1 w2 w3 w4 : string) (used : gset string) (g : G) :
  Forall (λ w, w ∈ words) [w0; w1; w2; w3; w4] →
  ∃ f, try_w4 words idx w0 w1 w2 w3 w4 (used, g) = Ok f.
Proof.
  rewrite !Forall_cons. intros (H0' & H1' & H2' & H3' & H4' & _).
  unfold try_w4. letter w0 4 a. letter w2 4 b. letter w4 4 c.
  lookup_candidates [(0, a); (2, b); (4, c)] c5 g5 Hc5.
  destruct c5 as [|w5 c5].
  - destruct (set_remove_present w4 used) as [u ->]. simpl. eauto.
  - destruct (assemble_total w0 w1 w2 w3 w4 w5) as [wf ->]; [|simpl; eauto].
    destruct (Hc5 w5) as [Hw5 _]; [left|].
    repeat constructor; by apply word_five.
Qed.

(** A loop over candidates whose body neither raises nor loses track of
    the used set. *)
Lemma candidate_loop_total (body : string → search_state →
      result (flow (waffle * G) search_state))
    (cands : list string) (used : gset string) (g : G) :
  (∀ w g0, w ∈ cands →
     (∃ f, body w (used, g0) = Ok f) ∧
     match body w (used, g0) with
     | Ok (Continue st) => st.1 = used
     | _ => True
     end) →
  ∃ f, for_each body cands (used, g) = Ok f ∧
       match f with Continue st => st.1 = used | Returned _ => True end.
Proof.
  intros Hbody.
  apply (for_each_total (λ st : search_state, st.1 = used)); [done|].
  intros w [u g0] Hw Hu. simpl in Hu. subst u.
  destruct (Hbody w g0 Hw) as [[f Hf] Hinv].
  rewrite Hf in Hinv. exists f. split; [done|]. by destruct f.
Qed.

Lemma try_w3_total (w0 w1 w2 w3 : string) (used : gset string) (g : G) :
  Forall (λ w, w ∈ words) [w0; w1; w2; w3] →
  ∃ f, try_w3 words idx w0 w1 w2 w3 (used, g) = Ok f.
Proof.
  rewrite !Forall_cons. intros (H0' & H1' & H2' & H3' & _).
  unfold try_w3. letter w1 4 a. letter w3 4 b.
  lookup_candidates [(0, a); (2, b)] c4 g4 Hc4.
  destruct c4 as [|x c4].
  { destruct (set_remove_present w3 used) as [u ->]. simpl. eauto. }
  destruct (candidate_loop_total (try_w4 words idx w0 w1 w2 w3) (x :: c4)
              ({[w3]} ∪ used) g4) as (f & -> & Hf).
  { intros w4 g0 Hw4. destruct (Hc4 w4 Hw4) as [Hin Hnot]. split.
    - apply try_w4_total. repeat constructor; done.
    - pose proof (try_w4_spec words idx w0 w1 w2 w3 w4 _ g0 Hnot) as Hs.
      by destruct (try_w4 _ _ _ _ _ _ _ _) as [[?|?]|?]. }
  simpl. destruct f as [r|[u g']]; [eauto|]. simpl in Hf. subst u.
  destruct (set_remove_present w3 used) as [u ->]. simpl. eauto.
Qed.

Lemma try_w2_total (w0 w1 w2 : string) (used : gset string) (g : G) :
  Forall (λ w, w ∈ words) [w0; w1; w2] →
  ∃ f, try_w2 words idx w0 w1 w2 (used, g) = Ok f.
Proof.
  rewrite !Forall_cons. intros (H0' & H1' & H2' & _).
  unfold try_w2. letter w0 2 a. letter w2 2 b.
  lookup_candidates [(0, a); (2, b)] c3 g3 Hc3.
  destruct c3 as [|x c3].
  { destruct (set_remove_present w2 used) as [u ->]. simpl. eauto. }
  destruct (candidate_loop_total (try_w3 words idx w0 w1 w2) (x :: c3)
              ({[w2]} ∪ used) g3) as (f & -> & Hf).
  { intros w3 g0 Hw3. destruct (Hc3 w3 Hw3) as [Hin Hnot]. split.
    - apply try_w3_total. repeat constructor; done.
    - pose proof (try_w3_spec words idx w0 w1 w2 w3 _ g0 Hnot) as Hs.
      by destruct (try_w3 _ _ _ _ _ _ _) as [[?|?]|?]. }
  simpl. destruct f as [r|[u g']]; [eauto|]. simpl in Hf. subst u.
  destruct (set_remove_present w2 used) as [u ->]. simpl. eauto.
Qed.

Lemma try_w1_total (w0 w1 : string) (used : gset string) (g : G) :
  Forall (λ w, w ∈ words) [w0; w1] →
  ∃ f, try_w1 words idx w0 w1 (used, g) = Ok f.
Proof.
  rewrite !Forall_cons. intros (H0' & H1' & _).
  unfold try_w1. letter w1 2 a.
  lookup_candidates [(0, a)] c2 g2 Hc2.
  destruct c2 as [|x c2].
  { destruct (set_remove_present w1 used) as [u ->]. simpl. eauto. }
  destruct (candidate_loop_total (try_w2 words idx w0 w1) (x :: c2)
              ({[w1]} ∪ used) g2) as (f & -> & Hf).
  { intros w2 g0 Hw2. destruct (Hc2 w2 Hw2) as [Hin Hnot]. split.
    - apply try_w2_total. repeat constructor; done.
    - pose proof (try_w2_spec words idx w0 w1 w2 _ g0 Hnot) as Hs.
      by destruct (try_w2 _ _ _ _ _ _) as [[?|?]|?]. }
  simpl. destruct f as [r|[u g']]; [eauto|]. simpl in Hf. subst u.
  destruct (set_remove_present w1 used) as [u ->]. simpl. eauto.
Qed.

(** On a non-empty list of 5-letter words [build_waffle] returns: a
    grid and its words, or [None]. *)
Lemma build_waffle_total (m : nat) (g : G) :
  words ≠ [] →
  ∃ r g', build_waffle words idx m g = Ok (r, g').
Proof.
  intros Hne. unfold build_waffle.
  destruct (choice_elem words g Hne) as (w0 & g0 & -> & Hw0). simpl.
  destruct m as [|m]; [eauto|].
  letter w0 0 a.
  lookup_candidates [(0, a)] c1 g1 Hc1.
  destruct c1 as [|x c1]; [eauto|].
  destruct (candidate_loop_total (try_w1 words idx w0) (x :: c1)
              ({[w0]} ∪ ∅) g1) as (f & -> & Hf).
  { intros w1 g' Hw1. destruct (Hc1 w1 Hw1) as [Hin Hnot]. split.
    - apply try_w1_total. repeat constructor; done.
    - pose proof (try_w1_spec words idx w0 w1 _ g' Hnot) as Hs.
      by destruct (try_w1 _ _ _ _ _) as [[?|?]|?]. }
  simpl. destruct f as [[wf g']|[u g']]; eauto.
Qed.

End Totality.

Section DriverFacts.
Context {G : Type} `{RandomLaws G}.

Lemma waffle_to_example_total (words : list string) (m : nat) (g g' : G)
    (wf : waffle) :
  Forall is_word words →
  build_waffle words (build_pos_index words) m g = Ok (Some wf, g') →
  ∃ masked ex, grid_to_masked wf.1.1 = Ok masked ∧
               waffle_to_example wf = Ok ex.
Proof.
  intros Hwords Hb.
  destruct (built_grid_masked words m g g' wf Hwords Hb)
    as (masked & Hm & Hok).
  destruct (flat21_roundtrip masked Hok) as (flat & Hflat & _).
  destruct wf as [[gr [[a0 a1] a2]] [[d0 d1] d2]]. simpl in Hm.
  exists masked. eexists. split; [done|].
  unfold waffle_to_example. rewrite Hm. simpl. rewrite Hflat. done.
Qed.

(** The loop of [generate_many] on a non-empty list of words of the data
    model: it ends normally, after at most [budget] further tries, with
    at most [n] successes, and stops only when [n] is reached or the
    budget is used up; it writes one record per success. *)
Lemma generate_loop_spec (words : list string) (n budget : nat)
    (st : gen_state) :
  words ≠ [] → Forall is_word words → successes st ≤ n →
  ∃ st',
    generate_loop words (build_pos_index words) n budget st = Ok st' ∧
    tries st' ≤ tries st + budget ∧
    successes st ≤ successes st' ∧ successes st' ≤ n ∧
    (successes st' = n ∨ tries st' = tries st + budget) ∧
    length (outf st') = length (outf st) + (successes st' - successes st).
Proof.
  intros Hne Hwords. revert st.
  assert (Forall (λ w, String.length w = 5) words) as Hfive.
  { eapply Forall_impl; [exact Hwords|]. by intros w [? _]. }
  induction budget as [|budget IH]; intros st Hs; simpl.
  - exists st. repeat split; lia.
  - case_decide as Hlt.
    + destruct (build_waffle_total words Hfive 2000 (rng st) Hne)
        as (r & g' & Hb).
      rewrite Hb. simpl. destruct r as [wf|].
      * destruct (waffle_to_example_total words 2000 (rng st) g' wf
                    Hwords Hb) as (masked & ex & -> & ->). simpl.
        match goal with |- context [generate_loop _ _ _ _ ?s] =>
          destruct (IH s) as (st' & -> & Ht & Hs1 & Hs2 & Hstop & Hout)
        end; [simpl; lia|]. simpl in *.
        rewrite length_app in Hout. simpl in Hout.
        exists st'. repeat split; lia.
      * match goal with |- context [generate_loop _ _ _ _ ?s] =>
          destruct (IH s) as (st' & -> & Ht & Hs1 & Hs2 & Hstop & Hout)
        end; [simpl; lia|]. simpl in *.
        exists st'. repeat split; lia.
    + exists st. repeat split; lia.
Qed.

(** [generate_many] on a word file with at least one valid word: at most
    [max_tries] calls of [build_waffle], at most [n] records, a normal
    end also when fewer than [n] were produced. *)
Lemma generate_many_shortfall (fh : list string) (n max_tries : nat)
    (g : G) :
  load_words fh ≠ [] →
  ∃ st,
    generate_many fh n max_tries g = Ok st ∧
    tries st ≤ max_tries ∧ successes st ≤ n ∧
    (successes st = n ∨ tries st = max_tries) ∧
    length (outf st) = successes st.
Proof.
  intros Hne. unfold generate_many.
  match goal with |- context [generate_loop _ _ _ _ ?s] =>
    destruct (generate_loop_spec (load_words fh) n max_tries s Hne
                (load_words_words fh))
      as (st & -> & Ht & _ & Hs & Hstop & Hout)
  end; [simpl; lia|]. simpl in *.
  exists st. repeat split; lia.
Qed.

End DriverFacts.

(** * The theorems at sample data *)

Lemma build_waffle_solved_witness :
  build_waffle demo_words (build_pos_index demo_words) 2000 ([] : list nat)
    = Ok (Some (demo_grid, ("abcde", "ijklm", "qrstu"),
                ("afinq", "cgkos", "ehmpu")), []) ∧
  intersections "abcde" "afinq" "ijklm" "cgkos" "qrstu" "ehmpu" ∧
  NoDup ["abcde"; "afinq"; "ijklm"; "cgkos"; "qrstu"; "ehmpu"].
Proof.
  assert (build_waffle demo_words (build_pos_index demo_words) 2000
            ([] : list nat)
          = Ok (Some (demo_grid, ("abcde", "ijklm", "qrstu"),
                      ("afinq", "cgkos", "ehmpu")), [])) as Hb.
  { vm_compute. reflexivity. }
  split; [exact Hb|].
  exact (build_waffle_solved demo_words (build_pos_index demo_words) 2000
           [] [] demo_grid "abcde" "afinq" "ijklm" "cgkos" "qrstu" "ehmpu"
           Hb).
Defined.

Lemma candidates_exact_witness :
  ∃ res g',
    candidates_with_constraints demo_words (build_pos_index demo_words)
      [(0, "a"%char)] {["abcde"]} ([] : list nat) = Ok (res, g') ∧
    res ≡ₚ filter (λ w, satisfies w [(0, "a"%char)] ∧ w ∉ ({["abcde"]} : gset string))
             demo_words ∧
    (∀ w, w ∈ res ↔
          w ∈ demo_words ∧ satisfies w [(0, "a"%char)] ∧
          w ∉ ({["abcde"]} : gset string)).
Proof.
  apply (candidates_exact demo_words [(0, "a"%char)] {["abcde"]}
           ([] : list nat)).
  - discriminate.
  - intros w pos ch Hw Hc.
    apply list_elem_of_singleton in Hc. injection Hc as -> ->.
    unfold demo_words in Hw.
    repeat (apply elem_of_cons in Hw as [->|Hw]; [simpl; lia|]).
    by apply elem_of_nil in Hw.
Defined.

(** Without the length hypothesis of C2 the filter can raise: the base
    list is the posting list of [(0, "a")], whose only word has no
    letter at position 2. *)
Example candidates_short_word_raises :
  candidates_with_constraints ["ab"; "xyc"; "xzc"]
    (build_pos_index ["ab"; "xyc"; "xzc"])
    [(0, "a"%char); (2, "c"%char)] ∅ ([] : list nat)
  = Raise IndexError.
Proof. vm_compute. reflexivity. Qed.

Lemma shuffler_scramble_witness :
  2 ≤ String.length "abcde" ∧
  ∃ shuffled fixed_indices g',
    shuffler "abcde" 2 [3; 1; 4; 1; 5; 9; 2; 6]
      = Ok (shuffled, fixed_indices, g') ∧
    scramble_ok "abcde" 2 shuffled fixed_indices.
Proof.
  assert (2 ≤ String.length "abcde") as Hk by (simpl; lia).
  split; [exact Hk|].
  exact (shuffler_scramble "abcde" 2 [3; 1; 4; 1; 5; 9; 2; 6] Hk).
Defined.

Example shuffler_scramble_run :
  shuffler "abcde" 2 [3; 1; 4; 1; 5; 9; 2; 6]
  = Ok ("cbeda", [1; 3], [9; 2; 6]).
Proof. vm_compute. reflexivity. Qed.

Lemma shuffler_single_redo_witness :
  ∃ second,
    reassemble "abcde" (list_to_set [0; 1])
      (list_ascii_of_string "dce") (seq 0 (String.length "abcde"))
      = Ok second ∧
    shuffler "abcde" 2 redo_tape
      = Ok (second,
            merge_sort (≤) (elements (list_to_set [0; 1] : gset nat)), []) ∧
    (∀ i, i ∈ [0; 1] → String.get i second = String.get i "abcde").
Proof.
  apply (shuffler_single_redo "abcde" 2 redo_tape [0; 0; 0; 1; 0; 0]
           [1; 0; 0] [] [0; 1] (list_ascii_of_string "cde")
           (list_ascii_of_string "dce")).
  - vm_compute. reflexivity.
  - vm_compute. reflexivity.
  - vm_compute. reflexivity.
  - vm_compute. reflexivity.
Defined.

(** The redo can change the string ... *)
Example shuffler_redo_changes :
  shuffler "abcde" 2 redo_tape = Ok ("abdce", [0; 1], []).
Proof. vm_compute. reflexivity. Qed.

(** ... or give the target back, which is then returned as it is. *)
Example shuffler_redo_returns_target :
  shuffler "abcde" 2 ([] : list nat) = Ok ("abcde", [0; 1], []).
Proof. vm_compute. reflexivity. Qed.

Lemma demo_words_are_words : Forall is_word demo_words.
Proof. repeat constructor. Qed.

Lemma build_waffle_masked_witness :
  Forall is_word demo_words ∧
  build_waffle demo_words (build_pos_index demo_words) 2000 ([] : list nat)
    = Ok (Some (demo_grid, ("abcde", "ijklm", "qrstu"),
                ("afinq", "cgkos", "ehmpu")), []) ∧
  ∃ masked, grid_to_masked demo_grid = Ok masked ∧ masked_ok masked.
Proof.
  assert (build_waffle demo_words (build_pos_index demo_words) 2000
            ([] : list nat)
          = Ok (Some (demo_grid, ("abcde", "ijklm", "qrstu"),
                      ("afinq", "cgkos", "ehmpu")), [])) as Hb.
  { vm_compute. reflexivity. }
  split; [exact demo_words_are_words|]. split; [exact Hb|].
  exact (build_waffle_masked demo_words 2000 [] [] demo_grid
           ("abcde", "ijklm", "qrstu") ("afinq", "cgkos", "ehmpu")
           demo_words_are_words Hb).
Defined.

Example grid_to_masked_demo : grid_to_masked demo_grid = Ok demo_masked.
Proof. vm_compute. reflexivity. Qed.

Lemma demo_masked_ok : masked_ok demo_masked.
Proof.
  split; [done|]. split; [repeat constructor|].
  intros r c Hr Hc. below_five r; below_five c;
    (eexists; split; [reflexivity|]; split;
     [split; [intros Heq|intros Hin]|intros Hn]);
    first [ done | compute_done | exfalso; revert Hin; compute_done
          | exfalso; apply Hn; compute_done ].
Qed.

Lemma masked_to_flat21_reversible_witness :
  masked_ok demo_masked ∧
  ∃ flat21, masked_to_flat21 demo_masked = Ok flat21 ∧
            String.length flat21 = 21 ∧
            flat21_to_masked flat21 = Some demo_masked.
Proof.
  split; [exact demo_masked_ok|].
  exact (masked_to_flat21_reversible demo_masked demo_masked_ok).
Defined.

Example masked_to_flat21_demo :
  masked_to_flat21 demo_masked = Ok "abcdefghijklmnopqrstu" ∧
  flat21_to_masked "abcdefghijklmnopqrstu" = Some demo_masked.
Proof. split; vm_compute; reflexivity. Qed.

Lemma build_waffle_nil_raises_witness :
  (∀ key, posting (build_pos_index []) key = []) ∧
  build_waffle [] (build_pos_index []) 2000 ([] : list nat)
    = Raise IndexError.
Proof. exact (build_waffle_nil_raises 2000 ([] : list nat)). Defined.


Lemma generate_many_no_words_raises_witness :
  load_words [] = [] ∧ 0 < 1 ∧
  generate_many [] 1 1 ([] : list nat) = Raise IndexError.
Proof.
  assert (load_words [] = []) as Hw by reflexivity.
  assert (0 < 1) as Hn by lia.
  split; [exact Hw|]. split; [exact Hn|].
  exact (generate_many_no_words_raises [] 1 1 ([] : list nat) Hw Hn Hn).
Defined.




(** * Further properties of the code *)

(** ** build_pos_index *)

(** X1. The posting list the index holds for [(pos, ch)] is the list of
    the words that have [ch] at [pos], in the order of the word list and
    as often as they occur in it; for a pair no word has it is empty. *)
Theorem posting_list_exact (words : list string) (pos : nat) (ch : ascii) :
  posting (build_pos_index words) (pos, ch)
  = filter (λ w, String.get pos w = Some ch) words.
Proof. apply posting_build_pos_index. Qed.

Lemma index_append_nonempty (idx : pos_index) (key : nat * ascii)
    (w : string) :
  (∀ k l, idx !! k = Some l → l ≠ []) →
  ∀ k l, index_append idx key w !! k = Some l → l ≠ [].
Proof.
  intros Hidx k l. unfold index_append.
  destruct (decide (key = k)) as [->|Hne].
  - rewrite lookup_insert_eq. intros [= <-] Hnil.
    by apply app_eq_nil in Hnil as [_ ?].
  - rewrite lookup_insert_ne by done. apply Hidx.
Qed.

Lemma build_pos_index_nonempty (words : list string) :
  ∀ k l, build_pos_index words !! k = Some l → l ≠ [].
Proof.
  unfold build_pos_index.
  assert (∀ idx : pos_index, (∀ k l, idx !! k = Some l → l ≠ []) →
    ∀ k l, foldl (λ idx w,
             foldl (λ idx key, index_append idx key w) idx (enumerate w))
             idx words !! k = Some l → l ≠ []) as Hgen.
  { induction words as [|w words IH]; intros idx Hidx; simpl; [done|].
    apply IH. clear IH. revert idx Hidx.
    induction (enumerate w) as [|key keys IHk]; intros idx Hidx; simpl;
      [done|].
    apply IHk. by apply index_append_nonempty. }
  apply Hgen. intros k l. by rewrite lookup_empty.
Qed.

(** X2. The index has a key [(pos, ch)] exactly when some word of the
    list has [ch] at [pos], and it never stores an empty list. *)
Theorem pos_index_keys (words : list string) (pos : nat) (ch : ascii) :
  (is_Some (build_pos_index words !! (pos, ch)) ↔
   ∃ w, w ∈ words ∧ String.get pos w = Some ch) ∧
  build_pos_index words !! (pos, ch) ≠ Some [].
Proof.
  split.
  - pose proof (posting_build_pos_index words pos ch) as Hp.
    unfold posting in Hp. split.
    + intros [l Hl]. rewrite Hl in Hp. simpl in Hp.
      pose proof (build_pos_index_nonempty words _ _ Hl) as Hne.
      destruct l as [|w l]; [done|].
      assert (w ∈ filter (λ w, String.get pos w = Some ch) words) as Hw.
      { rewrite <- Hp. left. }
      apply list_elem_of_filter in Hw as [? ?]. eauto.
    + intros (w & Hw & Hg).
      destruct (build_pos_index words !! (pos, ch)) as [l|]; [by eexists|].
      simpl in Hp.
      assert (w ∈ filter (λ w, String.get pos w = Some ch) words) as Hin.
      { by apply list_elem_of_filter. }
      rewrite <- Hp in Hin. by apply elem_of_nil in Hin.
  - intros Hl. by apply (build_pos_index_nonempty words _ _ Hl).
Qed.

(** ** candidates_with_constraints *)

Lemma filter_none {A : Type} (P : A → Prop) `{∀ x, Decision (P x)}
    (l : list A) :
  Forall (λ x, ¬ P x) l → filter P l = [].
Proof.
  induction 1 as [|x l Hx _ IH]; [done|].
  by rewrite filter_cons, decide_False.
Qed.

Section CandidateEdges.
Context {G : Type} `{RandomLaws G}.

(** X3. Whatever the index holds, also one that was not built from the
    word list, every word a call returns has the required letter at
    every constrained position and is not in the exclusion set. *)
Theorem candidates_checked (words : list string) (idx : pos_index)
    (cs : constraints) (used : gset string) (g g' : G)
    (res : list string) :
  candidates_with_constraints words idx cs used g = Ok (res, g') →
  Forall (λ w, satisfies w cs ∧ w ∉ used) res.
Proof.
  intros Hc. rewrite Forall_forall. intros w Hw.
  by eapply candidates_sound.
Qed.

(** X4. With an empty constraint map no index is consulted and nothing is
    raised: the result is a rearrangement of the words of the list that
    are not in the exclusion set. *)
Theorem candidates_unconstrained (words : list string) (idx : pos_index)
    (used : gset string) (g : G) :
  ∃ res g',
    candidates_with_constraints words idx [] used g = Ok (res, g') ∧
    res ≡ₚ filter (λ w, w ∉ used) words.
Proof.
  unfold candidates_with_constraints.
  destruct (shuffle (filter (λ w, w ∉ used) words) g) as [res g'] eqn:Hsh.
  exists res, g'. split; [done|].
  pose proof (shuffle_perm (filter (λ w, w ∉ used) words) g) as Hp.
  by rewrite Hsh in Hp.
Qed.

(** X5. When one of the constrained letters occurs in no word of the list
    at its position, the call returns the empty list, and raises nothing
    even if the list holds words shorter than a constrained position:
    the empty posting list is the base and no word is inspected. *)
Theorem candidates_missing_letter (words : list string) (cs : constraints)
    (used : gset string) (g : G) (pos : nat) (ch : ascii) :
  (pos, ch) ∈ cs →
  (∀ w, w ∈ words → String.get pos w ≠ Some ch) →
  ∃ g', candidates_with_constraints words (build_pos_index words) cs used g
        = Ok ([], g').
Proof.
  intros Hin Hnone. unfold candidates_with_constraints.
  destruct cs as [|c cs]; [by apply elem_of_nil in Hin|].
  assert (posting (build_pos_index words) (pos, ch) = []) as Hempty.
  { rewrite posting_build_pos_index. apply filter_none.
    rewrite Forall_forall. intros w Hw. by apply Hnone. }
  pose proof (sort_by_len_head (posting (build_pos_index words) <$> c :: cs))
    as Hhead.
  pose proof (sort_by_len_perm (posting (build_pos_index words) <$> c :: cs))
    as Hperm.
  destruct (sort_by_len (posting (build_pos_index words) <$> c :: cs))
    as [|base rest]; [eauto|].
  assert ([] ∈ base :: rest) as Hnil.
  { rewrite Hperm, <- Hempty. apply list_elem_of_fmap. eauto. }
  rewrite Forall_forall in Hhead. apply Hhead in Hnil. simpl in Hnil.
  destruct base as [|w base]; [|simpl in Hnil; lia].
  simpl. destruct (shuffle [] g) as [res g'] eqn:Hsh.
  pose proof (shuffle_perm (@nil string) g) as Hp.
  rewrite Hsh in Hp. simpl in Hp. apply Permutation_nil_r in Hp. subst res.
  eauto.
Qed.

End CandidateEdges.

(** ** build_waffle *)

Section BuildEdges.
Context {G : Type} `{RandomLaws G}.

(** X6. With the index built from the word list, the six words of a
    successful build are all words of that list. *)
Theorem build_waffle_words_of_list (words : list string) (m : nat)
    (g g' : G) (gr : grid) (w0 w1 w2 w3 w4 w5 : string) :
  build_waffle words (build_pos_index words) m g
    = Ok (Some (gr, (w0, w2, w4), (w1, w3, w5)), g') →
  Forall (λ w, w ∈ words) [w0; w1; w2; w3; w4; w5].
Proof.
  intros Hb. apply build_waffle_path in Hb
    as (v0 & v1 & v2 & v3 & v4 & v5 & Hp & Has).
  apply assemble_words in Has as [[= <- <- <-] [= <- <- <-]].
  by apply search_path_in_words.
Qed.

(** X7. On a non-empty list of 5-character words, with the index built
    from it, [build_waffle] raises nothing: no index or key is ever out
    of range, and every [used.remove] finds its word. It returns a
    waffle or [None]. *)
Theorem build_waffle_never_raises (words : list string) (m : nat) (g : G) :
  words ≠ [] →
  Forall (λ w, String.length w = 5) words →
  ∃ r g', build_waffle words (build_pos_index words) m g = Ok (r, g').
Proof. intros Hne Hfive. by apply build_waffle_total. Qed.

(** X8. With [max_attempts_per_level = 0] the loop body never runs: on a
    non-empty word list the call draws its first word and returns
    [None], whatever the words are. *)
Theorem build_waffle_zero_attempts (words : list string) (idx : pos_index)
    (g : G) :
  words ≠ [] →
  ∃ g', build_waffle words idx 0 g = Ok (None, g').
Proof.
  intros Hne. unfold build_waffle.
  destruct (choice_elem words g Hne) as (w0 & g0 & -> & _). simpl. eauto.
Qed.

(** X9. A word list with fewer than six different words never yields a
    waffle: no call on it, with its index, succeeds. *)
Theorem build_waffle_needs_six_words (words : list string) (m : nat)
    (g g' : G) (wf : waffle) :
  size (list_to_set words : gset string) < 6 →
  build_waffle words (build_pos_index words) m g ≠ Ok (Some wf, g').
Proof.
  intros Hsize Hb. apply build_waffle_path in Hb
    as (w0 & w1 & w2 & w3 & w4 & w5 & Hp & _).
  pose proof (search_path_in_words _ _ _ _ _ _ _ Hp) as Hin.
  apply search_path_solved in Hp as [_ Hnd].
  assert ((list_to_set [w0; w1; w2; w3; w4; w5] : gset string)
            ⊆ list_to_set words) as Hsub.
  { intros w. rewrite !elem_of_list_to_set. intros Hw.
    rewrite Forall_forall in Hin. by apply Hin. }
  apply subseteq_size in Hsub.
  rewrite (size_list_to_set [w0; w1; w2; w3; w4; w5]) in Hsub by done.
  simpl in Hsub. lia.
Qed.

End BuildEdges.

(** *** The search is exhaustive *)

Lemma for_each_continue_all {X R S : Type} (I : S → Prop)
    (body : X → S → result (flow R S)) (xs : list X) (s s' : S) :
  I s →
  (∀ x s s1, x ∈ xs → I s → body x s = Ok (Continue s1) → I s1) →
  for_each body xs s = Ok (Continue s') →
  ∀ x, x ∈ xs → ∃ s0 s1, I s0 ∧ body x s0 = Ok (Continue s1).
Proof.
  revert s. induction xs as [|y xs IH]; intros s Hs Hpres Hfe x Hx.
  { by apply elem_of_nil in Hx. }
  simpl in Hfe. destruct (body y s) as [[r|s1]|e] eqn:Hy; simpl in Hfe;
    [done| |done].
  apply elem_of_cons in Hx as [->|Hx]; [by eauto|].
  apply (IH s1); try done.
  - eapply Hpres; [left|done..].
  - intros x' s0 s2 Hin. apply Hpres. by right.
Qed.

Lemma agree_get (w : string) (i : nat) (v : string) (j : nat) (a : ascii) :
  agree w i v j → String.get j v = Some a → String.get i w = Some a.
Proof. intros (ch & Hw & Hv) Ha. congruence. Qed.

Section Exhaustive.
Context {G : Type} `{RandomLaws G}.
Variable words : list string.

Let idx : pos_index := build_pos_index words.

(** A call that returns has not left out any fitting word of the list. *)
Lemma candidates_complete (cs : constraints) (used : gset string)
    (g g' : G) (res : list string) (w : string) :
  cs ≠ [] →
  candidates_with_constraints words idx cs used g = Ok (res, g') →
  w ∈ words → satisfies w cs → w ∉ used → w ∈ res.
Proof.
  intros Hcs Hc Hw Hsat Hu. unfold candidates_with_constraints in Hc.
  destruct cs as [|c cs]; [done|].
  destruct (sort_by_len (posting idx <$> c :: cs)) as [|base rest] eqn:Hs.
  { pose proof (sort_by_len_perm (posting idx <$> c :: cs)) as Hp.
    rewrite Hs in Hp. by apply Permutation_nil_cons in Hp. }
  apply base_is_posting in Hs as ([pos ch] & Hkey & ->).
  unfold idx in Hc. rewrite posting_build_pos_index in Hc.
  match type of Hc with context [filter_base ?b ?c ?u ?r] =>
    destruct (filter_base b c u r) as [out|e] eqn:Hfb end; [|done].
  simpl in Hc. injection Hc as Hsh.
  apply (shuffle_elem _ _ _ _ _ Hsh).
  apply filter_base_Ok in Hfb. simpl in Hfb. subst out.
  apply list_elem_of_filter. split; [done|].
  apply list_elem_of_filter. split; [|done].
  unfold satisfies in Hsat. rewrite Forall_forall in Hsat.
  by apply (Hsat (pos, ch)).
Qed.

Lemma try_w4_dead (w0 w1 w2 w3 w4 : string) (used : gset string) (g : G)
    (st : search_state) :
  try_w4 words idx w0 w1 w2 w3 w4 (used, g) = Ok (Continue st) →
  ¬ ext5 words w0 w2 w4 ({[w4]} ∪ used).
Proof.
  unfold try_w4. intros Ht (w5 & Hw5 & Hu5 & A0 & A2 & A4).
  destruct (str_index w0 4) as [a|] eqn:Ha; simpl in Ht; [|done].
  destruct (str_index w2 4) as [b|] eqn:Hb; simpl in Ht; [|done].
  destruct (str_index w4 4) as [c|] eqn:Hc; simpl in Ht; [|done].
  apply str_index_Ok in Ha, Hb, Hc.
  destruct (candidates_with_constraints words idx _ _ g)
    as [[c5 g5]|] eqn:Hc5; simpl in Ht; [|done].
  assert (w5 ∈ c5) as Hin.
  { eapply candidates_complete; [|exact Hc5|done| |done]; [done|].
    repeat constructor; simpl; by eapply agree_get. }
  destruct c5 as [|x c5]; [by apply elem_of_nil in Hin|].
  by destruct (assemble w0 w1 w2 w3 w4 x).
Qed.

Lemma try_w3_dead (w0 w1 w2 w3 : string) (used : gset string) (g : G)
    (st : search_state) :
  w3 ∉ used →
  try_w3 words idx w0 w1 w2 w3 (used, g) = Ok (Continue st) →
  ¬ ext4 words w0 w1 w2 w3 ({[w3]} ∪ used).
Proof.
  unfold try_w3. intros Hw3 Ht (w4 & Hw4 & Hu4 & A0 & A2 & Hext).
  destruct (str_index w1 4) as [a|] eqn:Ha; simpl in Ht; [|done].
  destruct (str_index w3 4) as [b|] eqn:Hb; simpl in Ht; [|done].
  apply str_index_Ok in Ha, Hb.
  destruct (candidates_with_constraints words idx _ _ g)
    as [[c4 g4]|] eqn:Hc4; simpl in Ht; [|done].
  assert (w4 ∈ c4) as Hin.
  { eapply candidates_complete; [|exact Hc4|done| |done]; [done|].
    repeat constructor; simpl; by eapply agree_get. }
  destruct c4 as [|x c4]; [by apply elem_of_nil in Hin|].
  destruct (for_each _ (x :: c4) _) as [[r|st1]|e] eqn:Hfe; [done| |done].
  assert (∀ y (s s1 : search_state), y ∈ x :: c4 →
            s.1 = {[w3]} ∪ used →
            try_w4 words idx w0 w1 w2 w3 y s = Ok (Continue s1) →
            s1.1 = {[w3]} ∪ used) as Hpres.
  { intros y [u g0] s1 Hy Hu Hbody. simpl in Hu. subst u.
    pose proof (candidates_sound _ _ _ _ _ _ _ y Hc4 Hy) as [_ Hnot].
    pose proof (try_w4_spec words idx w0 w1 w2 w3 y _ g0 Hnot) as Hs.
    by rewrite Hbody in Hs. }
  destruct (for_each_continue_all
              (λ s : search_state, s.1 = {[w3]} ∪ used)
              _ _ _ _ eq_refl Hpres Hfe _ Hin)
    as ([u g0] & s1 & Hu & Hbody).
  simpl in Hu. subst u. by apply try_w4_dead in Hbody.
Qed.

Lemma try_w2_dead (w0 w1 w2 : string) (used : gset string) (g : G)
    (st : search_state) :
  w2 ∉ used →
  try_w2 words idx w0 w1 w2 (used, g) = Ok (Continue st) →
  ¬ ext3 words w0 w1 w2 ({[w2]} ∪ used).
Proof.
  unfold try_w2. intros Hw2 Ht (w3 & Hw3 & Hu3 & A0 & A2 & Hext).
  destruct (str_index w0 2) as [a|] eqn:Ha; simpl in Ht; [|done].
  destruct (str_index w2 2) as [b|] eqn:Hb; simpl in Ht; [|done].
  apply str_index_Ok in Ha, Hb.
  destruct (candidates_with_constraints words idx _ _ g)
    as [[c3 g3]|] eqn:Hc3; simpl in Ht; [|done].
  assert (w3 ∈ c3) as Hin.
  { eapply candidates_complete; [|exact Hc3|done| |done]; [done|].
    repeat constructor; simpl; by eapply agree_get. }
  destruct c3 as [|x c3]; [by apply elem_of_nil in Hin|].
  destruct (for_each _ (x :: c3) _) as [[r|st1]|e] eqn:Hfe; [done| |done].
  assert (∀ y (s s1 : search_state), y ∈ x :: c3 →
            s.1 = {[w2]} ∪ used →
            try_w3 words idx w0 w1 w2 y s = Ok (Continue s1) →
            s1.1 = {[w2]} ∪ used) as Hpres.
  { intros y [u g0] s1 Hy Hu Hbody. simpl in Hu. subst u.
    pose proof (candidates_sound _ _ _ _ _ _ _ y Hc3 Hy) as [_ Hnot].
    pose proof (try_w3_spec words idx w0 w1 w2 y _ g0 Hnot) as Hs.
    by rewrite Hbody in Hs. }
  destruct (for_each_continue_all
              (λ s : search_state, s.1 = {[w2]} ∪ used)
              _ _ _ _ eq_refl Hpres Hfe _ Hin)
    as ([u g0] & s1 & Hu & Hbody).
  simpl in Hu. subst u. by apply try_w3_dead in Hbody.
Qed.

Lemma try_w1_dead (w0 w1 : string) (used : gset string) (g : G)
    (st : search_state) :
  w1 ∉ used →
  try_w1 words idx w0 w1 (used, g) = Ok (Continue st) →
  ¬ ext2 words w0 w1 ({[w1]} ∪ used).
Proof.
  unfold try_w1. intros Hw1 Ht (w2 & Hw2 & Hu2 & A0 & Hext).
  destruct (str_index w1 2) as [a|] eqn:Ha; simpl in Ht; [|done].
  apply str_index_Ok in Ha.
  destruct (candidates_with_constraints words idx _ _ g)
    as [[c2 g2]|] eqn:Hc2; simpl in Ht; [|done].
  assert (w2 ∈ c2) as Hin.
  { eapply candidates_complete; [|exact Hc2|done| |done]; [done|].
    repeat constructor; simpl; by eapply agree_get. }
  destruct c2 as [|x c2]; [by apply elem_of_nil in Hin|].
  destruct (for_each _ (x :: c2) _) as [[r|st1]|e] eqn:Hfe; [done| |done].
  assert (∀ y (s s1 : search_state), y ∈ x :: c2 →
            s.1 = {[w1]} ∪ used →
            try_w2 words idx w0 w1 y s = Ok (Continue s1) →
            s1.1 = {[w1]} ∪ used) as Hpres.
  { intros y [u g0] s1 Hy Hu Hbody. simpl in Hu. subst u.
    pose proof (candidates_sound _ _ _ _ _ _ _ y Hc2 Hy) as [_ Hnot].
    pose proof (try_w2_spec words idx w0 w1 y _ g0 Hnot) as Hs.
    by rewrite Hbody in Hs. }
  destruct (for_each_continue_all
              (λ s : search_state, s.1 = {[w1]} ∪ used)
              _ _ _ _ eq_refl Hpres Hfe _ Hin)
    as ([u g0] & s1 & Hu & Hbody).
  simpl in Hu. subst u. by apply try_w2_dead in Hbody.
Qed.

Lemma completes_ext1 (w0 : string) :
  completes words w0 → ext1 words w0 ({[w0]} ∪ ∅).
Proof.
  intros (w1 & w2 & w3 & w4 & w5 & Hin & Hi & Hnd).
  rewrite !Forall_cons in Hin.
  destruct Hin as (H1 & H2 & H3 & H4 & H5 & _).
  destruct Hi as (A1 & A2 & A3 & A3' & A4 & A4' & A5 & A5' & A5'').
  rewrite !NoDup_cons in Hnd.
  destruct Hnd as (N0 & N1 & N2 & N3 & N4 & _).
  exists w1. repeat split; try done. { set_unfold. intuition congruence. }
  exists w2. repeat split; try done. { set_unfold. intuition congruence. }
  exists w3. repeat split; try done. { set_unfold. intuition congruence. }
  exists w4. repeat split; try done. { set_unfold. intuition congruence. }
  exists w5. repeat split; try done. set_unfold. intuition congruence.
Qed.

(** X10. The search is exhaustive for the word drawn first: when
    [build_waffle], with the index built from the word list and a
    positive [max_attempts_per_level], returns [None], no five further
    words of the list complete that first word to a grid of six
    different words meeting the nine intersection constraints. *)
Theorem build_waffle_none_exhausted (m : nat) (g g0 g' : G) (w0 : string) :
  choice words g = Ok (w0, g0) →
  build_waffle words idx (S m) g = Ok (None, g') →
  ¬ completes words w0.
Proof.
  intros Hch Hb Hcomp. apply completes_ext1 in Hcomp
    as (w1 & Hw1 & Hu1 & A1 & Hext).
  unfold build_waffle in Hb. rewrite Hch in Hb. simpl in Hb.
  destruct (str_index w0 0) as [a|] eqn:Ha; simpl in Hb; [|done].
  apply str_index_Ok in Ha.
  destruct (candidates_with_constraints words idx _ _ g0)
    as [[c1 g1]|] eqn:Hc1; simpl in Hb; [|done].
  assert (w1 ∈ c1) as Hin.
  { eapply candidates_complete; [|exact Hc1|done| |done]; [done|].
    repeat constructor; simpl; by eapply agree_get. }
  destruct c1 as [|x c1]; [by apply elem_of_nil in Hin|].
  destruct (for_each _ (x :: c1) _) as [[[wf gr]|st1]|e] eqn:Hfe;
    [done| |done].
  assert (∀ y (s s1 : search_state), y ∈ x :: c1 →
            s.1 = {[w0]} ∪ ∅ →
            try_w1 words idx w0 y s = Ok (Continue s1) →
            s1.1 = {[w0]} ∪ ∅) as Hpres.
  { intros y [u gy] s1 Hy Hu Hbody. simpl in Hu. subst u.
    pose proof (candidates_sound _ _ _ _ _ _ _ y Hc1 Hy) as [_ Hnot].
    pose proof (try_w1_spec words idx w0 y _ gy Hnot) as Hs.
    by rewrite Hbody in Hs. }
  destruct (for_each_continue_all
              (λ s : search_state, s.1 = {[w0]} ∪ ∅)
              _ _ _ _ eq_refl Hpres Hfe _ Hin)
    as ([u gy] & s1 & Hu & Hbody).
  simpl in Hu. subst u. by apply try_w1_dead in Hbody.
Qed.

End Exhaustive.

(** ** grid_to_masked, masked_to_flat21 *)

Ltac row_shape row :=
  destruct row as [|? [|? [|? [|? [|? ?]]]]]; simpl in *; try lia.

(** X11. On any grid with at least five rows of at least five cells,
    whatever the cells hold, [grid_to_masked] raises nothing and returns
    a 5x5 grid with ['#'] at the four holes and every other cell as it
    was; rows and cells beyond the fifth are dropped. *)
Theorem grid_to_masked_cells (gr : grid) :
  5 ≤ length gr → Forall (λ row, 5 ≤ length row) (take 5 gr) →
  ∃ masked,
    grid_to_masked gr = Ok masked ∧
    length masked = 5 ∧ Forall (λ row, length row = 5) masked ∧
    ∀ r c, r < 5 → c < 5 →
      at2 masked r c
      = if decide ((r, c) ∈ holes) then Ok (Some "#"%char) else at2 gr r c.
Proof.
  intros Hlen Hrows.
  destruct gr as [|r0 [|r1 [|r2 [|r3 [|r4 rest]]]]]; simpl in Hlen; try lia.
  simpl in Hrows. rewrite !Forall_cons in Hrows.
  destruct Hrows as (H0 & H1 & H2 & H3 & H4 & _).
  row_shape r0. row_shape r1. row_shape r2. row_shape r3. row_shape r4.
  eexists. split; [reflexivity|]. split; [done|].
  split; [repeat constructor|].
  intros r c Hr Hc. below_five r; below_five c; reflexivity.
Qed.

(** X12. Masking is idempotent: masking the result of [grid_to_masked]
    again gives the same grid. *)
Theorem grid_to_masked_idempotent (gr masked : grid) :
  grid_to_masked gr = Ok masked → grid_to_masked masked = Ok masked.
Proof.
  intros Hm.
  destruct gr as [|r0 gr1]; [by vm_compute in Hm|].
  destruct r0 as [|? [|? [|? [|? [|? ?]]]]]; [by vm_compute in Hm..|].
  destruct gr1 as [|r1 gr2]; [by vm_compute in Hm|].
  destruct r1 as [|? [|? [|? [|? [|? ?]]]]]; [by vm_compute in Hm..|].
  destruct gr2 as [|r2 gr3]; [by vm_compute in Hm|].
  destruct r2 as [|? [|? [|? [|? [|? ?]]]]]; [by vm_compute in Hm..|].
  destruct gr3 as [|r3 gr4]; [by vm_compute in Hm|].
  destruct r3 as [|? [|? [|? [|? [|? ?]]]]]; [by vm_compute in Hm..|].
  destruct gr4 as [|r4 gr5]; [by vm_compute in Hm|].
  destruct r4 as [|? [|? [|? [|? [|? ?]]]]]; [by vm_compute in Hm..|].
  vm_compute in Hm. injection Hm as <-. reflexivity.
Qed.

(** X13. A grid with fewer than five rows, or with one of its first five
    rows shorter than five cells, makes [grid_to_masked] raise
    [IndexError]. *)
Theorem grid_to_masked_short_raises (gr : grid) :
  ¬ (5 ≤ length gr ∧ Forall (λ row, 5 ≤ length row) (take 5 gr)) →
  grid_to_masked gr = Raise IndexError.
Proof.
  intros Hbad.
  destruct gr as [|r0 gr1]; [reflexivity|].
  destruct r0 as [|? [|? [|? [|? [|? ?]]]]]; [reflexivity..|].
  destruct gr1 as [|r1 gr2]; [reflexivity|].
  destruct r1 as [|? [|? [|? [|? [|? ?]]]]]; [reflexivity..|].
  destruct gr2 as [|r2 gr3]; [reflexivity|].
  destruct r2 as [|? [|? [|? [|? [|? ?]]]]]; [reflexivity..|].
  destruct gr3 as [|r3 gr4]; [reflexivity|].
  destruct r3 as [|? [|? [|? [|? [|? ?]]]]]; [reflexivity..|].
  destruct gr4 as [|r4 gr5]; [reflexivity|].
  destruct r4 as [|? [|? [|? [|? [|? ?]]]]]; [reflexivity..|].
  exfalso. apply Hbad. split; [simpl; lia|].
  simpl. rewrite take_0. repeat (constructor; [simpl; lia|]). constructor.
Qed.

Lemma join_None (chars : list (option ascii)) :
  None ∈ chars → join chars = Raise TypeError.
Proof.
  induction chars as [|v chars IH]; intros Hin.
  { by apply elem_of_nil in Hin. }
  destruct v as [ch|]; [|done].
  apply elem_of_cons in Hin as [Heq|Hin]; [done|].
  simpl. by rewrite IH.
Qed.

Lemma at2_elem_of_concat {A : Type} (m : list (list A)) (r c : nat) (v : A) :
  at2 m r c = Ok v → v ∈ concat m.
Proof.
  unfold at2. destruct (m !! r) as [row|] eqn:Hr; [|done].
  destruct (row !! c) as [x|] eqn:Hc; [|done]. intros [= ->].
  apply list_elem_of_In, in_concat. exists row.
  split; apply list_elem_of_In; by eapply list_elem_of_lookup_2.
Qed.

Section RawGrid.
Context {G : Type} `{RandomLaws G}.

(** X14. [masked_to_flat21] must be given the masked grid: applied to
    the raw grid of a successful build it raises [TypeError], because the
    hole cells hold [None], which is not ['#'] and cannot be joined. *)
Theorem masked_to_flat21_raw_raises (words : list string) (idx : pos_index)
    (m : nat) (g g' : G) (wf : waffle) :
  build_waffle words idx m g = Ok (Some wf, g') →
  masked_to_flat21 wf.1.1 = Raise TypeError.
Proof.
  intros Hb. apply build_waffle_path in Hb
    as (w0 & w1 & w2 & w3 & w4 & w5 & Hp & Has).
  apply search_path_solved in Hp as [Hi _].
  apply assemble_raw_grid in Hi as (gr & Has' & Hraw & _).
  rewrite Has in Has'. injection Has' as ->. simpl.
  destruct Hraw as (Hlen & Hrows & _ & Hholes).
  rewrite masked_to_flat21_cells by done.
  apply join_None. apply list_elem_of_filter. split; [done|].
  apply Forall_cons in Hholes as [H11 _]. simpl in H11.
  by eapply at2_elem_of_concat.
Qed.

End RawGrid.

(** ** waffle_to_example *)

Ltac keep_cell :=
  rewrite filter_cons_True by (intros [= ->]; done).

Ltac drop_hash :=
  rewrite filter_cons_False by (intros Hn; by apply Hn).

Lemma assemble_example (w0 w1 w2 w3 w4 w5 : string) (wf : waffle) :
  Forall is_word [w0; w1; w2; w3; w4; w5] →
  intersections w0 w1 w2 w3 w4 w5 →
  assemble w0 w1 w2 w3 w4 w5 = Ok wf →
  ∃ ex, waffle_to_example wf = Ok ex ∧
        grid_to_masked wf.1.1 = Ok (ex_grid ex) ∧
        example_ok ex w0 w1 w2 w3 w4 w5.
Proof.
  intros Hw Hi Has.
  destruct (assemble_masked _ _ _ _ _ _ wf Hw Hi Has) as (masked & Hm & Hok).
  rewrite !Forall_cons in Hw.
  destruct Hw as (Hw0 & Hw1 & Hw2 & Hw3 & Hw4 & Hw5 & _).
  apply is_word_shape in Hw0 as (a0 & b0 & c0 & d0 & e0 & -> & ? & ? & ? & ? & ?).
  apply is_word_shape in Hw1 as (a1 & b1 & c1 & d1 & e1 & -> & ? & ? & ? & ? & ?).
  apply is_word_shape in Hw2 as (a2 & b2 & c2 & d2 & e2 & -> & ? & ? & ? & ? & ?).
  apply is_word_shape in Hw3 as (a3 & b3 & c3 & d3 & e3 & -> & ? & ? & ? & ? & ?).
  apply is_word_shape in Hw4 as (a4 & b4 & c4 & d4 & e4 & -> & ? & ? & ? & ? & ?).
  apply is_word_shape in Hw5 as (a5 & b5 & c5 & d5 & e5 & -> & ? & ? & ? & ? & ?).
  unfold intersections, agree in Hi. simpl in Hi.
  destruct Hi as ((x1 & ? & ?) & (x2 & ? & ?) & (x3 & ? & ?) &
                  (x4 & ? & ?) & (x5 & ? & ?) & (x6 & ? & ?) &
                  (x7 & ? & ?) & (x8 & ? & ?) & (x9 & ? & ?)).
  simplify_eq.
  vm_compute in Has. injection Has as <-.
  simpl in Hm. vm_compute in Hm. injection Hm as <-.
  eexists. split.
  { unfold waffle_to_example.
    match goal with |- context [grid_to_masked ?x] =>
      set (gm := grid_to_masked x)
    end.
    vm_compute in gm. subst gm.
    change (Ok ?x ≫= ?f) with (f x). cbv beta.
    rewrite masked_to_flat21_cells by first [done | repeat constructor].
    cbn [concat app].
    repeat first [keep_cell | drop_hash]. rewrite filter_nil.
    reflexivity. }
  split; [reflexivity|].
  unfold example_ok. simpl.
  split; [done|]. split; [done|]. split; [done|]. split; [done|].
  split.
  { repeat (apply andb_true_intro; split; [done|]). done. }
  eexists _, _. split; [reflexivity|]. split; reflexivity.
Qed.

Section Records.
Context {G : Type} `{RandomLaws G}.

(** The record of a successful build on a word list of the data model. *)
Lemma built_example (words : list string) (m : nat) (g g' : G)
    (wf : waffle) :
  Forall is_word words →
  build_waffle words (build_pos_index words) m g = Ok (Some wf, g') →
  ∃ ex, waffle_to_example wf = Ok ex ∧
        grid_to_masked wf.1.1 = Ok (ex_grid ex) ∧
        solved_record words ex.
Proof.
  intros Hwords Hb. apply build_waffle_path in Hb
    as (w0 & w1 & w2 & w3 & w4 & w5 & Hp & Has).
  pose proof (search_path_in_words _ _ _ _ _ _ _ Hp) as Hin.
  apply search_path_solved in Hp as [Hi Hnd].
  destruct (assemble_example w0 w1 w2 w3 w4 w5 wf) as (ex & Hex & Hm & Hok);
    try done.
  { eapply Forall_impl; [exact Hin|]. simpl. intros w Hw.
    rewrite Forall_forall in Hwords. by apply Hwords. }
  exists ex. split; [done|]. split; [done|].
  by exists w0, w1, w2, w3, w4, w5.
Qed.

(** X15. For a successful build on a word list of the data model, with
    its index, [waffle_to_example] raises nothing and its record holds
    the masked grid, the across words [w0, w2, w4], the down words
    [w1, w3, w5] and a string of 21 lowercase letters laid out as
    [w0], the letters 1 of [w1, w3, w5], [w2], the letters 3 of
    [w1, w3, w5], [w4]. *)
Theorem waffle_to_example_record (words : list string) (m : nat)
    (g g' : G) (gr : grid) (w0 w1 w2 w3 w4 w5 : string) :
  Forall is_word words →
  build_waffle words (build_pos_index words) m g
    = Ok (Some (gr, (w0, w2, w4), (w1, w3, w5)), g') →
  ∃ ex, waffle_to_example (gr, (w0, w2, w4), (w1, w3, w5)) = Ok ex ∧
        grid_to_masked gr = Ok (ex_grid ex) ∧
        example_ok ex w0 w1 w2 w3 w4 w5.
Proof.
  intros Hwords Hb.
  destruct (built_example words m g g' _ Hwords Hb)
    as (ex & Hex & Hm & (v0 & v1 & v2 & v3 & v4 & v5 & _ & _ & _ & Hok)).
  exists ex. split; [done|]. split; [done|].
  destruct Hok as (Hg & Ha & Hd & Hrest).
  unfold waffle_to_example in Hex.
  destruct (grid_to_masked gr) as [masked|]; [|done]. simpl in Hex.
  destruct (masked_to_flat21 masked) as [flat|]; [|done]. simpl in Hex.
  injection Hex as <-. simpl in *. by simplify_eq.
Qed.

End Records.

(** ** LETTER2IDX, IDX2LETTER, encode_flat21_to_ints *)

Lemma LETTER2IDX_lookup (c : ascii) :
  LETTER2IDX !! c = if is_lower c then Some (letter_number c) else None.
Proof. destruct c as [[] [] [] [] [] [] [] []]; by vm_compute. Qed.

Lemma IDX2LETTER_lookup (c : ascii) :
  is_lower c = true → IDX2LETTER !! letter_number c = Some c.
Proof. destruct c as [[] [] [] [] [] [] [] []]; by vm_compute. Qed.

Lemma letter_number_range (c : ascii) :
  is_lower c = true → 1 ≤ letter_number c ≤ 26.
Proof.
  unfold is_lower, letter_number. intros Hl.
  apply andb_prop in Hl as [H1 H2].
  apply Nat.leb_le in H1, H2. lia.
Qed.

Lemma encode_chars_spec (chars : list ascii) :
  encode_chars chars
  = if forallb is_lower chars then Ok (letter_number <$> chars)
    else Raise KeyError.
Proof.
  induction chars as [|c chars IH]; [done|].
  cbn [encode_chars forallb]. unfold dict_get.
  rewrite LETTER2IDX_lookup. destruct (is_lower c); [|done].
  simpl. rewrite IH. by destruct (forallb is_lower chars).
Qed.

(** X16. [encode_flat21_to_ints] maps a string of lowercase letters to
    the numbers of its letters, [a] to 1 up to [z] to 26, and raises
    [KeyError] as soon as the string holds any other character, such as
    an upper-case letter or the hole marker ['#']. *)
Theorem encode_flat21_to_ints_spec (flat21 : string) :
  encode_flat21_to_ints flat21
  = if forallb is_lower (list_ascii_of_string flat21)
    then Ok (letter_number <$> list_ascii_of_string flat21)
    else Raise KeyError.
Proof. apply encode_chars_spec. Qed.

(** X17. A successful encoding has one number per character, each
    between 1 and 26, so 0 stays free for padding, and [IDX2LETTER]
    decodes it back to the characters of the string. *)
Theorem encode_flat21_to_ints_decodes (flat21 : string) (ints : list nat) :
  encode_flat21_to_ints flat21 = Ok ints →
  length ints = String.length flat21 ∧
  Forall (λ i, 1 ≤ i ≤ 26) ints ∧
  (λ i, IDX2LETTER !! i) <$> ints = Some <$> list_ascii_of_string flat21.
Proof.
  unfold encode_flat21_to_ints. rewrite encode_chars_spec.
  rewrite <- length_list_ascii.
  destruct (forallb is_lower (list_ascii_of_string flat21)) eqn:Hl; [|done].
  intros [= <-]. rewrite length_fmap. split; [done|].
  induction (list_ascii_of_string flat21) as [|c cs IH]; [done|].
  simpl in Hl. apply andb_prop in Hl as [Hc Hl].
  destruct (IH Hl) as [IH1 IH2]. rewrite !fmap_cons. split.
  - constructor; [by apply letter_number_range|done].
  - by rewrite (IDX2LETTER_lookup c Hc), IH2.
Qed.

Lemma valid_cell_mask21_value : valid_cell_mask21 = Ok (replicate 21 1).
Proof. reflexivity. Qed.

Section Encoded.
Context {G : Type} `{RandomLaws G}.

(** X18. The record of a successful build on a word list of the data
    model, with its index, always encodes: [encode_flat21_to_ints] gives
    21 numbers between 1 and 26 for its [flat21], and
    [valid_cell_mask21] is a mask of ones of that same length. *)
Theorem generated_flat21_encodes (words : list string) (m : nat)
    (g g' : G) (wf : waffle) :
  Forall is_word words →
  build_waffle words (build_pos_index words) m g = Ok (Some wf, g') →
  ∃ ex ints mask,
    waffle_to_example wf = Ok ex ∧
    encode_flat21_to_ints (ex_flat21 ex) = Ok ints ∧
    valid_cell_mask21 = Ok mask ∧
    length ints = 21 ∧ length mask = length ints ∧
    Forall (λ i, 1 ≤ i ≤ 26) ints ∧ Forall (λ b, b = 1) mask.
Proof.
  intros Hwords Hb.
  destruct (built_example words m g g' wf Hwords Hb)
    as (ex & Hex & _ & (w0 & w1 & w2 & w3 & w4 & w5 & _ & _ & _ & Hok)).
  destruct Hok as (_ & _ & _ & Hlen & Hlow & _).
  pose proof (encode_chars_spec (list_ascii_of_string (ex_flat21 ex)))
    as Henc.
  rewrite Hlow in Henc.
  exists ex, (letter_number <$> list_ascii_of_string (ex_flat21 ex)),
    (replicate 21 1).
  split; [done|]. split; [exact Henc|]. split; [reflexivity|].
  rewrite length_fmap, length_list_ascii, Hlen.
  split; [done|]. split; [done|]. split; [|by apply Forall_replicate].
  clear Henc Hlen.
  induction (list_ascii_of_string (ex_flat21 ex)) as [|c cs IH]; [done|].
  simpl in Hlow. apply andb_prop in Hlow as [Hc Hlow].
  rewrite fmap_cons. constructor; [by apply letter_number_range|by apply IH].
Qed.

End Encoded.

(** ** generate_many *)

Section DriverExtras.
Context {G : Type} `{RandomLaws G}.

(** Every record the loop writes is the record of a solved waffle. *)
Lemma generate_loop_records (words : list string) (n budget : nat)
    (st st' : gen_state) :
  Forall is_word words →
  Forall (solved_record words) (outf st) →
  generate_loop words (build_pos_index words) n budget st = Ok st' →
  Forall (solved_record words) (outf st').
Proof.
  intros Hwords. revert st.
  induction budget as [|budget IH]; intros st Hout; simpl.
  { by intros [= <-]. }
  case_decide; [|by intros [= <-]].
  destruct (build_waffle words (build_pos_index words) 2000 (rng st))
    as [[[wf|] g']|] eqn:Hb; simpl; [| |done].
  - destruct (built_example words 2000 (rng st) g' wf Hwords Hb)
      as (ex & -> & -> & Hrec). simpl.
    apply IH. simpl. apply Forall_app. split; [done|]. by constructor.
  - by apply IH.
Qed.

(** X19. On a word file with at least one valid word, [generate_many]
    ends without an exception after at most [max_tries] calls of
    [build_waffle], with at most [n] successes; it stops only when [n]
    waffles are written or [max_tries] is used up, and writes exactly one
    record per success. *)
Theorem generate_many_terminates (fh : list string) (n max_tries : nat)
    (g : G) :
  load_words fh ≠ [] →
  ∃ st,
    generate_many fh n max_tries g = Ok st ∧
    tries st ≤ max_tries ∧ successes st ≤ n ∧
    (successes st = n ∨ tries st = max_tries) ∧
    length (outf st) = successes st.
Proof. apply generate_many_shortfall. Qed.


End DriverExtras.

(** X21. Asked for no waffle, or given no try, [generate_many] calls
    [build_waffle] not even once and ends normally with both counters at
    zero and nothing written, also on a word file without any valid
    word. *)
Theorem generate_many_nothing_to_do {G : Type} `{Random G}
    (fh : list string) (n max_tries : nat) (g : G) :
  n = 0 ∨ max_tries = 0 →
  generate_many fh n max_tries g
  = Ok {| tries := 0; successes := 0; outf := []; rng := g |}.
Proof.
  intros [-> | ->]; unfold generate_many; [|done].
  by destruct max_tries.
Qed.

(** ** shuffler *)

Lemma select_from_partition (keep : nat → bool) (a : nat) (l : list ascii) :
  l ≡ₚ select_from keep a l ++ select_from (λ i, negb (keep i)) a l.
Proof.
  revert a. induction l as [|c l IH]; intros a; simpl; [done|].
  destruct (keep a); simpl.
  - by rewrite <- IH.
  - by rewrite <- Permutation_middle, <- IH.
Qed.

Lemma select_fixed_merge_from (keep : nat → bool) (a : nat)
    (l ts : list ascii) :
  length ts = length (select_from keep a l) →
  select_from (λ i, negb (keep i)) a (merge_from keep a l ts)
  = select_from (λ i, negb (keep i)) a l.
Proof.
  revert a ts. induction l as [|c l IH]; intros a ts; simpl; [done|].
  destruct (keep a) eqn:Hka; simpl.
  - destruct ts as [|t ts]; simpl; [done|]. intros [= Hl].
    by rewrite Hka, IH.
  - intros Hl. by rewrite Hka, IH.
Qed.

(** Merging in a rearrangement of the selected letters rearranges the
    list. *)
Lemma merge_from_perm (keep : nat → bool) (a : nat) (l ts : list ascii) :
  ts ≡ₚ select_from keep a l → merge_from keep a l ts ≡ₚ l.
Proof.
  intros Hp.
  assert (length ts = length (select_from keep a l)) as Hlen by by rewrite Hp.
  rewrite (select_from_partition keep a (merge_from keep a l ts)).
  rewrite select_merge_from, select_fixed_merge_from by done.
  rewrite Hp. symmetry. apply select_from_partition.
Qed.

Lemma merge_from_select (keep : nat → bool) (a : nat) (l : list ascii) :
  merge_from keep a l (select_from keep a l) = l.
Proof.
  revert a. induction l as [|c l IH]; intros a; simpl; [done|].
  destruct (keep a); simpl; by rewrite IH.
Qed.

Lemma select_from_length (keep : nat → bool) (a : nat) (l : list ascii) :
  length (select_from keep a l)
  = length (filter (λ i, keep i = true) (seq a (length l))).
Proof.
  revert a. induction l as [|c l IH]; intros a; simpl; [done|].
  rewrite filter_cons. destruct (keep a) eqn:Hk.
  - rewrite decide_True by done. simpl. by rewrite IH.
  - rewrite decide_False by done. by rewrite IH.
Qed.

(** The number of free positions. *)
Lemma free_positions_length (smp : list nat) (l : list ascii) :
  NoDup smp → (∀ i, i ∈ smp → i < length l) →
  length (select_from (λ i, bool_decide (i ∉ (list_to_set smp : gset nat)))
            0 l)
  = length l - length smp.
Proof.
  intros Hnd Hlt.
  pose proof (select_from_partition
    (λ i, bool_decide (i ∉ (list_to_set smp : gset nat))) 0 l) as Hp.
  apply Permutation_length in Hp. rewrite length_app in Hp.
  assert (length (select_from
            (λ i, negb (bool_decide (i ∉ (list_to_set smp : gset nat)))) 0 l)
          = length smp) as Hfix; [|lia].
  rewrite select_from_length. apply Permutation_length.
  apply NoDup_Permutation; [apply NoDup_filter, NoDup_seq|done|].
  intros i. rewrite list_elem_of_filter, elem_of_seq.
  rewrite negb_true_iff, bool_decide_eq_false, elem_of_list_to_set.
  split.
  - intros [Hi _]. by apply dec_stable.
  - intros Hi. split; [by intros Hn|]. specialize (Hlt i Hi). lia.
Qed.

Lemma perm_uniform {A : Type} (l ts : list A) :
  (∀ x y, x ∈ l → y ∈ l → x = y) → ts ≡ₚ l → ts = l.
Proof.
  intros Huni Hp. apply list_eq_same_length with (length l);
    [done|by rewrite Hp|].
  intros i x y Hi Hx Hy. apply Huni.
  - rewrite <- Hp. by eapply list_elem_of_lookup_2.
  - by eapply list_elem_of_lookup_2.
Qed.

Section ScrambleEdges.
Context {G : Type} `{RandomLaws G}.

(** What a returned scramble is made of. *)
Lemma shuffler_Ok_inv (target : string) (k : nat) (g g' : G)
    (s : string) (fixed : list nat) :
  shuffler target k g = Ok (s, fixed, g') →
  ∃ smp ts,
    length smp = k ∧ NoDup smp ∧
    (∀ i, i ∈ smp → i < String.length target) ∧
    fixed = merge_sort (≤) (elements (list_to_set smp : gset nat)) ∧
    ts ≡ₚ select_from (λ i, bool_decide (i ∉ (list_to_set smp : gset nat)))
            0 (list_ascii_of_string target) ∧
    s = string_of_list_ascii
          (merge_from (λ i, bool_decide (i ∉ (list_to_set smp : gset nat)))
             0 (list_ascii_of_string target) ts).
Proof.
  intros Hs.
  destruct (decide (k ≤ String.length target)) as [Hk|Hk]; last first.
  { unfold shuffler in Hs.
    rewrite sample_err in Hs by (rewrite length_seq; lia). done. }
  destruct (sample_ok (seq 0 (String.length target)) k g)
    as (smp & rest & g1 & Hsm & _ & _); [by rewrite length_seq|].
  destruct (shuffler_prefix target k g g1 smp Hsm)
    as (Hlen & Hnd & Hlt & Heq).
  rewrite Heq in Hs. clear Heq. simpl in Hs.
  assert (∀ i, i ∈ smp ↔ i ∈ (list_to_set smp : gset nat)) as Hset.
  { intros i. by rewrite elem_of_list_to_set. }
  rewrite (nonfixed_letters_set smp _ target Hset) in Hs.
  destruct (shuffle _ g1) as [ts1 g2] eqn:Hsh1.
  pose proof (shuffle_perm (select_from
    (λ i, bool_decide (i ∉ (list_to_set smp : gset nat))) 0
    (list_ascii_of_string target)) g1) as Hp1.
  rewrite Hsh1 in Hp1. simpl in Hp1.
  rewrite reassemble_spec in Hs by by rewrite Hp1. simpl in Hs.
  case_decide as Hsame.
  - destruct (shuffle ts1 g2) as [ts2 g3] eqn:Hsh2.
    pose proof (shuffle_perm ts1 g2) as Hp2.
    rewrite Hsh2 in Hp2. simpl in Hp2.
    rewrite reassemble_spec in Hs by by rewrite Hp2, Hp1. simpl in Hs.
    injection Hs as <- <- <-. exists smp, ts2.
    repeat split; try done. by rewrite Hp2.
  - injection Hs as <- <- <-. exists smp, ts1. repeat split; done.
Qed.

Lemma shuffler_sample_err (target : string) (fixed_count : nat) (g : G) :
  String.length target < fixed_count →
  shuffler target fixed_count g = Raise ValueError.
Proof.
  intros Hk. unfold shuffler.
  by rewrite sample_err by (rewrite length_seq; lia).
Qed.

(** X22. Asked to fix more positions than the target has characters,
    [shuffler] raises [ValueError]. *)
Theorem shuffler_too_many_fixed (target : string) (fixed_count : nat)
    (g : G) :
  String.length target < fixed_count →
  shuffler target fixed_count g = Raise ValueError.
Proof. apply shuffler_sample_err. Qed.

(** X23. The string [shuffler] returns is an anagram of its target: the
    same characters, each as often, over the whole string. *)
Theorem shuffler_anagram (target : string) (fixed_count : nat) (g g' : G)
    (shuffled : string) (fixed : list nat) :
  shuffler target fixed_count g = Ok (shuffled, fixed, g') →
  list_ascii_of_string shuffled ≡ₚ list_ascii_of_string target.
Proof.
  intros Hs. apply shuffler_Ok_inv in Hs
    as (smp & ts & _ & _ & _ & _ & Hp & ->).
  rewrite list_ascii_of_string_of_list_ascii. by apply merge_from_perm.
Qed.

(** X24. A scramble cannot differ from its target when at most one
    position is left free, or when the target is one letter repeated:
    [shuffler] then returns the target itself, after its one redo. *)
Theorem shuffler_degenerate (target : string) (fixed_count : nat)
    (g g' : G) (shuffled : string) (fixed : list nat) :
  String.length target - fixed_count ≤ 1 ∨
  (∀ x y, x ∈ list_ascii_of_string target →
          y ∈ list_ascii_of_string target → x = y) →
  shuffler target fixed_count g = Ok (shuffled, fixed, g') →
  shuffled = target.
Proof.
  intros Hdeg Hs. apply shuffler_Ok_inv in Hs
    as (smp & ts & Hlen & Hnd & Hlt & _ & Hp & ->).
  assert (ts = select_from
            (λ i, bool_decide (i ∉ (list_to_set smp : gset nat))) 0
            (list_ascii_of_string target)) as ->.
  { apply perm_uniform; [|done]. destruct Hdeg as [Hone|Huni].
    - pose proof (free_positions_length smp (list_ascii_of_string target)
                    Hnd) as Hfree.
      rewrite length_list_ascii in Hfree. specialize (Hfree Hlt).
      destruct (select_from _ 0 (list_ascii_of_string target))
        as [|c [|c' l]]; simpl in Hfree.
      + intros x y Hx. by apply elem_of_nil in Hx.
      + intros x y Hx Hy. apply list_elem_of_singleton in Hx, Hy.
        congruence.
      + lia.
    - intros x y Hx Hy.
      pose proof (select_from_partition
        (λ i, bool_decide (i ∉ (list_to_set smp : gset nat))) 0
        (list_ascii_of_string target)) as Hpart.
      apply Huni; rewrite Hpart; apply elem_of_app; by left. }
  by rewrite merge_from_select, string_of_list_ascii_of_string.
Qed.

(** X25. When the first reassembled string differs from the target it is
    returned as it is, with the generator after one single shuffle: the
    redo happens only on an exact match. *)
Theorem shuffler_no_redo (target : string) (fixed_count : nat)
    (g g1 g2 : G) (smp : list nat) (ts1 : list ascii) (first : string) :
  sample (seq 0 (String.length target)) fixed_count g = Ok (smp, g1) →
  shuffle (nonfixed_letters smp target) g1 = (ts1, g2) →
  reassemble target (list_to_set smp) ts1 (seq 0 (String.length target))
    = Ok first →
  first ≠ target →
  shuffler target fixed_count g
  = Ok (first, merge_sort (≤) (elements (list_to_set smp : gset nat)), g2).
Proof.
  intros Hs Hsh1 Hre1 Hne.
  destruct (shuffler_prefix target fixed_count g g1 smp Hs)
    as (_ & _ & _ & ->). simpl.
  rewrite Hsh1, Hre1. simpl. by rewrite decide_False.
Qed.

End ScrambleEdges.

(** ** main *)

Section MainFacts.
Context {G : Type} `{RandomLaws G}.

Lemma shuffler_scramble_ok (target : string) (k : nat) (g : G) :
  k ≤ String.length target →
  ∃ shuffled fixed g',
    shuffler target k g = Ok (shuffled, fixed, g') ∧
    scramble_ok target k shuffled fixed.
Proof.
  intros Hk.
  destruct (sample_ok (seq 0 (String.length target)) k g)
    as (smp & rest & g1 & Hs & _ & _); [by rewrite length_seq|].
  destruct (shuffler_prefix target k g g1 smp Hs)
    as (Hlen & Hnd & Hlt & ->). simpl.
  destruct (shuffle (nonfixed_letters smp target) g1) as [ts1 g2] eqn:Hsh1.
  pose proof (shuffle_perm (nonfixed_letters smp target) g1) as Hp1.
  rewrite Hsh1 in Hp1. simpl in Hp1.
  destruct (scramble_of_perm target k smp ts1)
    as (s1 & -> & Hok1); [done..|]. simpl.
  case_decide as Heq; [|by eauto].
  destruct (shuffle ts1 g2) as [ts2 g3] eqn:Hsh2.
  pose proof (shuffle_perm ts1 g2) as Hp2.
  rewrite Hsh2 in Hp2. simpl in Hp2.
  destruct (scramble_of_perm target k smp ts2)
    as (s2 & -> & Hok2); [done..|by rewrite Hp2|]. simpl. by eauto.
Qed.

Lemma main_loop_ok (puzzles : list example) (acc : list entry) (g : G) :
  Forall (λ p, fixed_number ≤ String.length (ex_flat21 p)) puzzles →
  ∃ entries g',
    for_in (λ p '(f_out, g),
        let target_flat := ex_flat21 p in
        '(shuffled_flat, fixed_positions, g) ←
          shuffler target_flat fixed_number g;
        let entry := {| en_target_flat21 := target_flat;
                        en_shuffled_flat21 := shuffled_flat;
                        en_fixed_indices := fixed_positions;
                        en_target_grid := ex_grid p |} in
        Ok (f_out ++ [entry], g)) puzzles (acc, g)
    = Ok (acc ++ entries, g') ∧
    Forall2 entry_ok puzzles entries.
Proof.
  intros Hlen. revert acc g.
  match goal with |- context [for_in ?b] => set (body := b) end.
  induction Hlen as [|p puzzles Hp _ IH]; intros acc g.
  - exists [], g. simpl. by rewrite app_nil_r.
  - rewrite for_in_cons.
    destruct (shuffler_scramble_ok (ex_flat21 p) fixed_number g Hp)
      as (sh & fx & g1 & Hsh & Hok).
    assert (body p (acc, g)
            = Ok (acc ++ [{| en_target_flat21 := ex_flat21 p;
                             en_shuffled_flat21 := sh;
                             en_fixed_indices := fx;
                             en_target_grid := ex_grid p |}], g1)) as ->.
    { unfold body. cbv beta iota zeta. by rewrite Hsh. }
    change (Ok ?x ≫= ?f) with (f x).
    destruct (IH (acc ++ [{| en_target_flat21 := ex_flat21 p;
                             en_shuffled_flat21 := sh;
                             en_fixed_indices := fx;
                             en_target_grid := ex_grid p |}]) g1)
      as (entries & g' & -> & HF).
    eexists (_ :: entries), g'. rewrite <- app_assoc. split; [done|].
    constructor; [|exact HF]. split; [done|]. split; [done|exact Hok].
Qed.

Lemma main_loop_short (puzzles : list example) (acc : list entry) (g : G) :
  Exists (λ p, String.length (ex_flat21 p) < fixed_number) puzzles →
  for_in (λ p '(f_out, g),
      let target_flat := ex_flat21 p in
      '(shuffled_flat, fixed_positions, g) ←
        shuffler target_flat fixed_number g;
      let entry := {| en_target_flat21 := target_flat;
                      en_shuffled_flat21 := shuffled_flat;
                      en_fixed_indices := fixed_positions;
                      en_target_grid := ex_grid p |} in
      Ok (f_out ++ [entry], g)) puzzles (acc, g)
  = Raise ValueError.
Proof.
  revert acc g.
  match goal with |- context [for_in ?b] => set (body := b) end.
  induction puzzles as [|p puzzles IH]; intros acc g Hex.
  { by apply Exists_nil in Hex. }
  rewrite for_in_cons.
  destruct (decide (String.length (ex_flat21 p) < fixed_number)) as [Hp|Hp].
  - assert (body p (acc, g) = Raise ValueError) as ->; [|done].
    unfold body. cbv beta iota zeta. by rewrite shuffler_sample_err.
  - destruct (shuffler_scramble_ok (ex_flat21 p) fixed_number g)
      as (sh & fx & g1 & Hsh & _); [lia|].
    assert (body p (acc, g)
            = Ok (acc ++ [{| en_target_flat21 := ex_flat21 p;
                             en_shuffled_flat21 := sh;
                             en_fixed_indices := fx;
                             en_target_grid := ex_grid p |}], g1)) as ->.
    { unfold body. cbv beta iota zeta. by rewrite Hsh. }
    change (Ok ?x ≫= ?f) with (f x).
    apply IH. by apply Exists_cons in Hex as [?|?].
Qed.

(** X26. When every puzzle read has a [flat21] of at least five
    characters, [main] raises nothing and writes one line per puzzle, in
    the order read: the puzzle's own [flat21] and grid, with a scramble
    of that [flat21] and its five fixed positions, sorted. *)
Theorem main_entries (puzzles : list example) (g : G) :
  Forall (λ p, fixed_number ≤ String.length (ex_flat21 p)) puzzles →
  ∃ entries g',
    main puzzles g = Ok (entries, g') ∧
    Forall2 entry_ok puzzles entries.
Proof. intros Hlen. by apply (main_loop_ok puzzles []). Qed.

(** X27. One puzzle with a [flat21] shorter than five characters makes
    [main] raise [ValueError]: five positions cannot be sampled from
    it. *)
Theorem main_short_flat21_raises (puzzles : list example) (g : G) :
  Exists (λ p, String.length (ex_flat21 p) < fixed_number) puzzles →
  main puzzles g = Raise ValueError.
Proof. apply main_loop_short. Qed.

(** X28. The two programs compose: whatever [generate_many] has written,
    [main] reads it without an exception and writes a scramble with five
    fixed positions for each record. *)
Theorem main_after_generate_many (fh : list string) (n max_tries : nat)
    (g g2 : G) (st : gen_state) :
  generate_many fh n max_tries g = Ok st →
  ∃ entries g3,
    main (outf st) g2 = Ok (entries, g3) ∧
    Forall2 entry_ok (outf st) entries.
Proof.
  intros Hg. apply (main_loop_ok (outf st) []).
  unfold generate_many in Hg.
  assert (Forall (solved_record (load_words fh)) (outf st)) as Hrec.
  { eapply generate_loop_records; [apply load_words_words| |exact Hg].
    simpl. constructor. }
  eapply Forall_impl; [exact Hrec|]. simpl.
  intros ex (w0 & w1 & w2 & w3 & w4 & w5 & _ & _ & _ & Hok).
  destruct Hok as (_ & _ & _ & -> & _). unfold fixed_number. lia.
Qed.

End MainFacts.

(** ** load_words *)

Lemma is_lower_other_classes (c : ascii) :
  is_lower c = true →
  is_space c = false ∧ is_upper c = false ∧ is_alpha c = true.
Proof. destruct c as [[] [] [] [] [] [] [] []]; by vm_compute. Qed.

(** A word of the data model, alone on a line of the file, passes
    through the line treatment of [load_words] unchanged. *)
Lemma is_word_line (w : string) :
  is_word w →
  strip (String.append w (String "010"%char "")) = w ∧
  lower w = w ∧ isalpha w = true.
Proof.
  intros Hw.
  apply is_word_shape in Hw as (a & b & c & d & e & -> & Ha & Hb & Hc & Hd & He).
  apply is_lower_other_classes in Ha as (Sa & Ua & Aa).
  apply is_lower_other_classes in Hb as (Sb & Ub & Ab).
  apply is_lower_other_classes in Hc as (Sc & Uc & Ac).
  apply is_lower_other_classes in Hd as (Sd & Ud & Ad).
  apply is_lower_other_classes in He as (Se & Ue & Ae).
  split; [|split].
  - unfold strip. cbv [String.append]. simpl. rewrite Sa. simpl.
    by rewrite Se.
  - unfold lower, lower_char. simpl. by rewrite Ua, Ub, Uc, Ud, Ue.
  - unfold isalpha. simpl. by rewrite Aa, Ab, Ac, Ad, Ae.
Qed.

Lemma load_words_of_lines (l : list string) :
  Forall is_word l →
  load_words ((λ w, String.append w (String "010"%char "")) <$> l)
  = merge_sort String.le l.
Proof.
  intros Hl. unfold load_words. f_equal.
  induction Hl as [|w l Hw _ IH]; [done|].
  pose proof Hw as [Hlen _].
  destruct (is_word_line w Hw) as (Hs & Hlo & Ha).
  rewrite fmap_cons, filter_cons, decide_True; last first.
  { rewrite Hs. intros ->. done. }
  rewrite fmap_cons, Hs, Hlo, filter_cons, decide_True by done.
  by rewrite IH.
Qed.

(** X29. The word list does not depend on the order of the lines of the
    file: two files with the same lines in any order load to the same
    list. *)
Theorem load_words_order_free (fh1 fh2 : list string) :
  fh1 ≡ₚ fh2 → load_words fh1 = load_words fh2.
Proof.
  intros Hp.
  apply (StronglySorted_unique String.le).
  - unfold load_words. apply StronglySorted_merge_sort; apply _.
  - unfold load_words. apply StronglySorted_merge_sort; apply _.
  - by rewrite !load_words_perm, Hp.
Qed.

(** X30. Loading is idempotent: a file that holds the words
    [load_words] returned, one per line, loads to that same list; no
    word is lost, changed or moved. *)
Theorem load_words_idempotent (fh : list string) :
  load_words ((λ w, String.append w (String "010"%char ""))
                <$> load_words fh)
  = load_words fh.
Proof.
  rewrite (load_words_of_lines (load_words fh)) by apply load_words_words.
  apply (StronglySorted_unique String.le).
  - apply StronglySorted_merge_sort; apply _.
  - unfold load_words. apply StronglySorted_merge_sort; apply _.
  - apply merge_sort_Permutation.
Qed.

(** ** The further properties at sample data *)

Lemma demo_build :
  build_waffle demo_words (build_pos_index demo_words) 2000 ([] : list nat)
  = Ok (Some (demo_grid, ("abcde", "ijklm", "qrstu"),
              ("afinq", "cgkos", "ehmpu")), []).
Proof. vm_compute. reflexivity. Qed.

Lemma candidates_checked_witness :
  Forall (λ w, satisfies w [(0, "a"%char)] ∧
               w ∉ ({["abcde"]} : gset string)) ["afinq"].
Proof.
  apply (candidates_checked demo_words (build_pos_index demo_words)
           [(0, "a"%char)] {["abcde"]} ([] : list nat) [] ["afinq"]).
  vm_compute. reflexivity.
Defined.

Lemma candidates_unconstrained_witness :
  ∃ res g',
    candidates_with_constraints demo_words ∅ [] {["abcde"]} ([] : list nat)
      = Ok (res, g') ∧
    res ≡ₚ filter (λ w, w ∉ ({["abcde"]} : gset string)) demo_words.
Proof.
  exact (candidates_unconstrained demo_words ∅ {["abcde"]} ([] : list nat)).
Defined.

Lemma candidates_missing_letter_witness :
  ∃ g', candidates_with_constraints ["ab"; "xyc"]
          (build_pos_index ["ab"; "xyc"])
          [(0, "a"%char); (2, "z"%char)] ∅ ([] : list nat)
        = Ok ([], g').
Proof.
  apply (candidates_missing_letter ["ab"; "xyc"]
           [(0, "a"%char); (2, "z"%char)] ∅ ([] : list nat) 2 "z"%char).
  - right. left.
  - intros w Hw.
    repeat (apply elem_of_cons in Hw as [->|Hw]; [discriminate|]).
    by apply elem_of_nil in Hw.
Defined.

Lemma build_waffle_words_of_list_witness :
  Forall (λ w, w ∈ demo_words)
    ["abcde"; "afinq"; "ijklm"; "cgkos"; "qrstu"; "ehmpu"].
Proof.
  exact (build_waffle_words_of_list demo_words 2000 [] [] demo_grid
           "abcde" "afinq" "ijklm" "cgkos" "qrstu" "ehmpu" demo_build).
Defined.

Lemma demo_words_five : Forall (λ w, String.length w = 5) demo_words.
Proof. repeat constructor. Qed.

Lemma demo_words_nonempty : demo_words ≠ [].
Proof. discriminate. Qed.

Lemma build_waffle_never_raises_witness :
  ∃ r g',
    build_waffle demo_words (build_pos_index demo_words) 2000
      ([3; 1; 4; 1; 5; 9; 2; 6] : list nat) = Ok (r, g').
Proof.
  exact (build_waffle_never_raises demo_words 2000 [3; 1; 4; 1; 5; 9; 2; 6]
           demo_words_nonempty demo_words_five).
Defined.

Lemma build_waffle_zero_attempts_witness :
  ∃ g', build_waffle demo_words (build_pos_index demo_words) 0
          ([] : list nat) = Ok (None, g').
Proof.
  exact (build_waffle_zero_attempts demo_words (build_pos_index demo_words)
           ([] : list nat) demo_words_nonempty).
Defined.

Lemma build_waffle_needs_six_words_witness :
  build_waffle ["abcde"; "afinq"; "abcde"]
    (build_pos_index ["abcde"; "afinq"; "abcde"]) 2000 ([] : list nat)
  ≠ Ok (Some (demo_grid, ("abcde", "ijklm", "qrstu"),
              ("afinq", "cgkos", "ehmpu")), []).
Proof.
  apply (build_waffle_needs_six_words ["abcde"; "afinq"; "abcde"] 2000
           ([] : list nat)).
  vm_compute. lia.
Defined.

Lemma build_waffle_none_exhausted_witness : ¬ completes demo_words "cgkos".
Proof.
  apply (build_waffle_none_exhausted demo_words 0
           [3; 1; 4; 1; 5; 9; 2; 6] [1; 4; 1; 5; 9; 2; 6]
           [1; 4; 1; 5; 9; 2; 6] "cgkos").
  - vm_compute. reflexivity.
  - vm_compute. reflexivity.
Defined.

Lemma grid_to_masked_cells_witness :
  ∃ masked,
    grid_to_masked demo_grid = Ok masked ∧
    length masked = 5 ∧ Forall (λ row, length row = 5) masked ∧
    ∀ r c, r < 5 → c < 5 →
      at2 masked r c
      = if decide ((r, c) ∈ holes) then Ok (Some "#"%char)
        else at2 demo_grid r c.
Proof.
  apply (grid_to_masked_cells demo_grid).
  - simpl. lia.
  - repeat constructor; simpl; lia.
Defined.

Lemma grid_to_masked_idempotent_witness :
  grid_to_masked demo_masked = Ok demo_masked.
Proof.
  apply (grid_to_masked_idempotent demo_grid demo_masked).
  vm_compute. reflexivity.
Defined.

Lemma grid_to_masked_short_raises_witness :
  grid_to_masked [[Some "a"%char]] = Raise IndexError.
Proof.
  apply (grid_to_masked_short_raises [[Some "a"%char]]).
  intros [Hlen _]. simpl in Hlen. lia.
Defined.

Lemma masked_to_flat21_raw_raises_witness :
  masked_to_flat21 demo_grid = Raise TypeError.
Proof.
  exact (masked_to_flat21_raw_raises demo_words (build_pos_index demo_words)
           2000 [] []
           (demo_grid, ("abcde", "ijklm", "qrstu"),
            ("afinq", "cgkos", "ehmpu")) demo_build).
Defined.

Lemma waffle_to_example_record_witness :
  ∃ ex,
    waffle_to_example (demo_grid, ("abcde", "ijklm", "qrstu"),
                       ("afinq", "cgkos", "ehmpu")) = Ok ex ∧
    grid_to_masked demo_grid = Ok (ex_grid ex) ∧
    example_ok ex "abcde" "afinq" "ijklm" "cgkos" "qrstu" "ehmpu".
Proof.
  exact (waffle_to_example_record demo_words 2000 [] [] demo_grid
           "abcde" "afinq" "ijklm" "cgkos" "qrstu" "ehmpu"
           demo_words_are_words demo_build).
Defined.

Example waffle_to_example_demo :
  ex_flat21 <$> (match waffle_to_example
                         (demo_grid, ("abcde", "ijklm", "qrstu"),
                          ("afinq", "cgkos", "ehmpu")) with
                 | Ok ex => Some ex
                 | Raise _ => None
                 end)
  = Some "abcdefghijklmnopqrstu".
Proof. vm_compute. reflexivity. Qed.

Lemma encode_flat21_to_ints_decodes_witness :
  length [1; 2; 26] = String.length "abz" ∧
  Forall (λ i, 1 ≤ i ≤ 26) [1; 2; 26] ∧
  (λ i, IDX2LETTER !! i) <$> [1; 2; 26]
  = Some <$> list_ascii_of_string "abz".
Proof.
  apply (encode_flat21_to_ints_decodes "abz" [1; 2; 26]).
  vm_compute. reflexivity.
Defined.

Example encode_hash_raises :
  encode_flat21_to_ints "ab#" = Raise KeyError.
Proof. vm_compute. reflexivity. Qed.

Lemma generated_flat21_encodes_witness :
  ∃ ex ints mask,
    waffle_to_example (demo_grid, ("abcde", "ijklm", "qrstu"),
                       ("afinq", "cgkos", "ehmpu")) = Ok ex ∧
    encode_flat21_to_ints (ex_flat21 ex) = Ok ints ∧
    valid_cell_mask21 = Ok mask ∧
    length ints = 21 ∧ length mask = length ints ∧
    Forall (λ i, 1 ≤ i ≤ 26) ints ∧ Forall (λ b, b = 1) mask.
Proof.
  exact (generated_flat21_encodes demo_words 2000 [] []
           (demo_grid, ("abcde", "ijklm", "qrstu"),
            ("afinq", "cgkos", "ehmpu"))
           demo_words_are_words demo_build).
Defined.

Lemma demo_file_has_words : load_words demo_words ≠ [].
Proof. intros Hl. vm_compute in Hl. discriminate. Qed.

Lemma generate_many_terminates_witness :
  ∃ st,
    generate_many demo_words 2 5 ([3; 1; 4; 1; 5; 9; 2; 6] : list nat)
      = Ok st ∧
    tries st ≤ 5 ∧ successes st ≤ 2 ∧
    (successes st = 2 ∨ tries st = 5) ∧
    length (outf st) = successes st.
Proof.
  exact (generate_many_terminates demo_words 2 5 [3; 1; 4; 1; 5; 9; 2; 6]
           demo_file_has_words).
Defined.


Lemma generate_many_nothing_to_do_witness :
  generate_many [] 0 5 ([] : list nat)
  = Ok {| tries := 0; successes := 0; outf := []; rng := [] |}.
Proof.
  apply (generate_many_nothing_to_do [] 0 5 ([] : list nat)). by left.
Defined.

Lemma shuffler_too_many_fixed_witness :
  shuffler "abc" 5 ([] : list nat) = Raise ValueError.
Proof.
  apply (shuffler_too_many_fixed "abc" 5 ([] : list nat)). simpl. lia.
Defined.

Lemma shuffler_anagram_witness :
  list_ascii_of_string "cbeda" ≡ₚ list_ascii_of_string "abcde".
Proof.
  apply (shuffler_anagram "abcde" 2 [3; 1; 4; 1; 5; 9; 2; 6] [9; 2; 6]
           "cbeda" [1; 3]).
  vm_compute. reflexivity.
Defined.

Lemma shuffler_degenerate_witness :
  shuffler "abcde" 4 ([3; 1; 4; 1; 5; 9; 2; 6] : list nat)
    = Ok ("abcde", [1; 2; 3; 4], [2; 6]) ∧
  "abcde" = "abcde".
Proof.
  assert (shuffler "abcde" 4 ([3; 1; 4; 1; 5; 9; 2; 6] : list nat)
          = Ok ("abcde", [1; 2; 3; 4], [2; 6])) as Hs
    by (vm_compute; reflexivity).
  split; [exact Hs|].
  apply (shuffler_degenerate "abcde" 4 [3; 1; 4; 1; 5; 9; 2; 6] [2; 6]
           "abcde" [1; 2; 3; 4]); [|exact Hs].
  left. simpl. lia.
Defined.

Example shuffler_uniform_run :
  shuffler "aaaaa" 2 ([3; 1; 4; 1; 5; 9; 2; 6] : list nat)
  = Ok ("aaaaa", [1; 3], []).
Proof. vm_compute. reflexivity. Qed.

Lemma shuffler_no_redo_witness :
  shuffler "abcde" 2 ([3; 1; 4; 1; 5; 9; 2; 6] : list nat)
  = Ok ("cbeda",
        merge_sort (≤) (elements (list_to_set [3; 1] : gset nat)),
        [9; 2; 6]).
Proof.
  apply (shuffler_no_redo "abcde" 2 [3; 1; 4; 1; 5; 9; 2; 6]
           [4; 1; 5; 9; 2; 6] [9; 2; 6] [3; 1]
           (list_ascii_of_string "cea") "cbeda").
  - vm_compute. reflexivity.
  - vm_compute. reflexivity.
  - vm_compute. reflexivity.
  - discriminate.
Defined.

(** A record as [generate_many] writes it, and one with a string that is
    too short. *)
Lemma main_entries_witness :
  ∃ entries g',
    main [{| ex_grid := demo_masked;
             ex_across := ["abcde"; "ijklm"; "qrstu"];
             ex_down := ["afinq"; "cgkos"; "ehmpu"];
             ex_flat21 := "abcdefghijklmnopqrstu" |}]
         ([3; 1; 4; 1; 5; 9; 2; 6] : list nat) = Ok (entries, g') ∧
    Forall2 entry_ok
      [{| ex_grid := demo_masked;
          ex_across := ["abcde"; "ijklm"; "qrstu"];
          ex_down := ["afinq"; "cgkos"; "ehmpu"];
          ex_flat21 := "abcdefghijklmnopqrstu" |}] entries.
Proof.
  apply (main_entries _ ([3; 1; 4; 1; 5; 9; 2; 6] : list nat)).
  repeat constructor.
Defined.

Lemma main_short_flat21_raises_witness :
  main [{| ex_grid := demo_masked; ex_across := []; ex_down := [];
           ex_flat21 := "abc" |}] ([] : list nat) = Raise ValueError.
Proof.
  apply (main_short_flat21_raises _ ([] : list nat)).
  left. vm_compute. lia.
Defined.

Lemma main_after_generate_many_witness :
  ∃ st entries g3,
    generate_many demo_words 1 1 ([] : list nat) = Ok st ∧
    main (outf st) ([3; 1; 4; 1; 5] : list nat) = Ok (entries, g3) ∧
    Forall2 entry_ok (outf st) entries.
Proof.
  destruct (generate_many demo_words 1 1 ([] : list nat)) as [st|e] eqn:Hg.
  - destruct (main_after_generate_many demo_words 1 1 []
                [3; 1; 4; 1; 5] st Hg) as (entries & g3 & Hm & HF).
    exists st, entries, g3. split; [reflexivity|]. by split.
  - vm_compute in Hg. discriminate.
Defined.

Lemma load_words_order_free_witness :
  load_words ["hello"; "apple"] = load_words ["apple"; "hello"].
Proof.
  apply (load_words_order_free ["hello"; "apple"] ["apple"; "hello"]).
  apply Permutation_swap.
Defined.
